(** * uGit simulator: a shallow embedding of [git.c] and its checked properties

    The C program keeps three pieces of process-wide state: the staging list
    [file_list] (a singly linked list of [FileNode]), the history [commit_list]
    (a singly linked list of [commitGit]) and the flag [is_repo_initialized].
    Linked lists are embedded as Rocq lists (the [next] pointer is the tail),
    [char] arrays as lists of bytes, and every operation as a function from
    the state before the call to a [result]: the [int] it returns, what it
    prints, and the state after the call.

    [malloc] is embedded as an argument of the operation that calls it: [None]
    is a [NULL] answer, [Some b] is a block whose bytes are whatever the
    allocator left there.  [checkout_commit] does not test what [malloc]
    returns; the embedding covers the runs in which those allocations succeed.

    The prompt of [main.c] is embedded on top of the operations: [strtok]
    works on the [command] array and an offset into it, the body of the loop
    is a function of the array [fgets] filled, and the loop itself runs for a
    given number of rounds on the input that is left. *)

From Stdlib Require Import ZArith Lia Ascii String.
From stdpp Require Import base decidable option list strings.

Open Scope Z_scope.
Open Scope nat_scope.

(** ** Constants of [git.h] *)

Definition MAX_ARG_LENGTH : nat := 50.
Definition MAX_FILES : nat := 10.

(** ** C strings *)

Module CString.

Definition NUL : ascii := Ascii.zero.

(** The string a [char *] points to: the bytes before the first NUL.  A list
    that ends without a NUL stands for bytes followed by their terminator
    (a string literal), or for an array that holds no terminator at all. *)
Fixpoint c_str (p : list ascii) : list ascii :=
  match p with
  | [] => []
  | c :: p' => if decide (c = NUL) then [] else c :: c_str p'
  end.

Definition strlen (p : list ascii) : nat := length (c_str p).

(** [strcmp(a, b) == 0] *)
Definition strcmp_eq0 (a b : list ascii) : bool :=
  bool_decide (c_str a = c_str b).

(** [strncpy(dst, src, n)], as the [n] bytes it writes to [dst]: the bytes
    of [src] up to its terminator, at most [n] of them, then NUL padding. *)
Definition strncpy (src : list ascii) (n : nat) : list ascii :=
  let copied := take n (c_str src) in
  copied ++ replicate (n - length copied) NUL.

(** The idiom of every copy in [git.c]:
<<
    strncpy(dst, src, MAX_ARG_LENGTH);
    dst[MAX_ARG_LENGTH - 1] = '\0';
>>
    as the new contents of the [MAX_ARG_LENGTH]-byte array [dst]. *)
Definition bounded_copy (src : list ascii) : list ascii :=
  <[MAX_ARG_LENGTH - 1 := NUL]> (strncpy src MAX_ARG_LENGTH).

(** The argument of a [%s] conversion. *)
Definition fmt_s (p : list ascii) : string := string_of_list_ascii (c_str p).

(** A string literal of the caller. *)
Definition lit (s : string) : list ascii := list_ascii_of_string s.

End CString.
Import CString.

(** ** Data model *)

(** [struct FileNode]; [next] is the tail of the list the node is in. *)
Record FileNode := mkFileNode { filename : list ascii }.

(** [struct commitGit]; [archivos] is the array of [MAX_FILES] nodes. *)
Record commitGit := mkCommit {
  archivos : list FileNode;
  mensaje : list ascii
}.

(** The statics of [git.c] ([version_list] is never read or written). *)
Record repo := mkRepo {
  file_list : list FileNode;
  commit_list : list commitGit;
  is_repo_initialized : bool
}.

(** What a call writes: [printf] lines (without their newline) and [perror]
    prefixes (the text [perror] adds after the colon depends on [errno]). *)
Inductive event :=
| printf (line : string)
| perror (prefix : string).

Record result := mkResult { ret : Z; out : list event; st : repo }.

(** The state at program start. *)
Definition initial_repo : repo :=
  {| file_list := []; commit_list := []; is_repo_initialized := false |}.

Definition name_of (f : FileNode) : list ascii := c_str (filename f).
Definition message_of (c : commitGit) : list ascii := c_str (mensaje c).

(** The listing of the staging area, in traversal order. *)
Definition staged (s : repo) : list (list ascii) := name_of <$> file_list s.

(** A node whose [filename] array is filled by the copy idiom from [f]'s. *)
Definition copy_node (f : FileNode) : FileNode :=
  {| filename := bounded_copy (filename f) |}.

(** [strlen(slot.filename) > 0]: how [checkout_commit] tells a slot that holds
    a name from one that does not. *)
Definition occupied (slot : FileNode) : Prop := 0 < strlen (filename slot).

#[global] Instance occupied_dec slot : Decision (occupied slot).
Proof. unfold occupied. apply _. Defined.

(** The entries a commit holds, in the order of its array. *)
Definition stored_entries (c : commitGit) : list FileNode :=
  filter occupied (take MAX_FILES (archivos c)).

(** ** Operations of [git.c] *)

Definition init_repo (s : repo) : result :=
  if is_repo_initialized s then
    {| ret := 0%Z; out := [printf "El repositorio ya está inicializado."]; st := s |}
  else
    {| ret := 0%Z; out := [];
       st := {| file_list := file_list s; commit_list := commit_list s;
                is_repo_initialized := true |} |}.

Definition check_repo_initialized (s : repo) : Z * list event :=
  if is_repo_initialized s then (1%Z, [])
  else (0%Z, [printf "Error: El repositorio no ha sido inicializado. Ejecuta 'init' primero."]).

(** The search loop of [add_file]: [Some l] when a node whose name compares
    equal was found and overwritten in place, giving the list [l]. *)
Fixpoint add_file_replace (current : list FileNode) (name : list ascii)
  : option (list FileNode) :=
  match current with
  | [] => None
  | node :: next =>
      if strcmp_eq0 (filename node) name
      then Some ({| filename := bounded_copy name |} :: next)
      else cons node <$> add_file_replace next name
  end.

Definition add_file (name : list ascii) (new_node : option FileNode) (s : repo)
  : result :=
  let '(ok, o) := check_repo_initialized s in
  if (ok =? 0)%Z then {| ret := (-1)%Z; out := o; st := s |} else
  match add_file_replace (file_list s) name with
  | Some l =>
      {| ret := 0%Z;
         out := o ++ [printf ("El archivo " +:+ fmt_s name +:+ " ya existe. Reemplazando el archivo.")];
         st := {| file_list := l; commit_list := commit_list s;
                  is_repo_initialized := is_repo_initialized s |} |}
  | None =>
      match new_node with
      | None =>
          {| ret := (-1)%Z; out := o ++ [perror "Error al asignar memoria"]; st := s |}
      | Some _ =>
          {| ret := 0%Z;
             out := o ++ [printf ("Archivo " +:+ fmt_s name +:+ " agregado al área de preparación.")];
             st := {| file_list := {| filename := bounded_copy name |} :: file_list s;
                      commit_list := commit_list s;
                      is_repo_initialized := is_repo_initialized s |} |}
      end
  end.

(** The search loop of [remove_file] with the unlinking that follows it:
    [None] when [current] reaches [NULL]. *)
Fixpoint remove_file_unlink (current : list FileNode) (name : list ascii)
  : option (list FileNode) :=
  match current with
  | [] => None
  | node :: next =>
      if strcmp_eq0 (filename node) name
      then Some next
      else cons node <$> remove_file_unlink next name
  end.

Definition remove_file (name : list ascii) (s : repo) : result :=
  let '(ok, o) := check_repo_initialized s in
  if (ok =? 0)%Z then {| ret := (-1)%Z; out := o; st := s |} else
  match remove_file_unlink (file_list s) name with
  | None =>
      {| ret := (-1)%Z; out := o ++ [printf ("Archivo no encontrado: " +:+ fmt_s name)];
         st := s |}
  | Some l =>
      {| ret := 0%Z; out := o ++ [printf ("Archivo " +:+ fmt_s name +:+ " eliminado.")];
         st := {| file_list := l; commit_list := commit_list s;
                  is_repo_initialized := is_repo_initialized s |} |}
  end.

(** The copy loop of [commit]:
<<
      while (current_file != NULL && index < MAX_FILES) { ...; index++; }
>>
    [archivos] is the array of the new block; slots the loop does not reach
    keep what the block held. *)
Fixpoint commit_copy (current_file : list FileNode) (index : nat)
    (archivos : list FileNode) : list FileNode :=
  match current_file with
  | [] => archivos
  | f :: next =>
      if decide (index < MAX_FILES) then
        commit_copy next (S index) (<[index := copy_node f]> archivos)
      else archivos
  end.

Definition commit (msg : list ascii) (new_commit : option commitGit) (s : repo)
  : result :=
  let '(ok, o) := check_repo_initialized s in
  if (ok =? 0)%Z then {| ret := (-1)%Z; out := o; st := s |} else
  match new_commit with
  | None =>
      {| ret := (-1)%Z; out := o ++ [perror "Error al asignar memoria para el commit"];
         st := s |}
  | Some block =>
      {| ret := 0%Z;
         out := o ++ [printf ("Commit creado con éxito: " +:+ fmt_s msg)];
         st := {| file_list := file_list s;
                  commit_list :=
                    {| archivos := commit_copy (file_list s) 0 (archivos block);
                       mensaje := bounded_copy msg |} :: commit_list s;
                  is_repo_initialized := is_repo_initialized s |} |}
  end.

Definition log_commits (s : repo) : result :=
  let '(ok, o) := check_repo_initialized s in
  if (ok =? 0)%Z then {| ret := (-1)%Z; out := o; st := s |} else
  match commit_list s with
  | [] =>
      {| ret := 0%Z; out := o ++ [printf "==Historial de Commits=="; printf "No hay commits."];
         st := s |}
  | history =>
      {| ret := 0%Z;
         out := o ++ printf "==Historial de Commits=="
                  :: ((λ c, printf (fmt_s (mensaje c))) <$> history);
         st := s |}
  end.

(** The search loop of [checkout_commit]. *)
Fixpoint checkout_find (current_commit : list commitGit) (commit_id : list ascii)
  : option commitGit :=
  match current_commit with
  | [] => None
  | c :: next =>
      if strcmp_eq0 (mensaje c) commit_id then Some c else checkout_find next commit_id
  end.

(** One round of the restoring loop of [checkout_commit], on slot [slot]. *)
Definition checkout_slot (file_list : list FileNode) (slot : FileNode)
  : list FileNode :=
  if decide (0 < strlen (filename slot))
  then copy_node slot :: file_list
  else file_list.

(** [for (int i = 0; i < MAX_FILES; i++)] over [archivos], from an empty list. *)
Definition checkout_restore (archivos : list FileNode) : list FileNode :=
  foldl checkout_slot [] (take MAX_FILES archivos).

Definition checkout_commit (commit_id : list ascii) (s : repo) : result :=
  let '(ok, o) := check_repo_initialized s in
  if (ok =? 0)%Z then {| ret := (-1)%Z; out := o; st := s |} else
  match checkout_find (commit_list s) commit_id with
  | None =>
      {| ret := (-1)%Z;
         out := o ++ [printf ("Error: Commit con ID '" +:+ fmt_s commit_id +:+ "' no encontrado.")];
         st := s |}
  | Some c =>
      {| ret := 0%Z;
         out := o ++ [printf ("Restaurado al commit: " +:+ fmt_s commit_id)];
         st := {| file_list := checkout_restore (archivos c);
                  commit_list := commit_list s;
                  is_repo_initialized := is_repo_initialized s |} |}
  end.

Definition list_files (s : repo) : result :=
  let '(ok, o) := check_repo_initialized s in
  if (ok =? 0)%Z then {| ret := (-1)%Z; out := o; st := s |} else
  match file_list s with
  | [] =>
      {| ret := 0%Z; out := o ++ [printf "No hay archivos en el área de preparación."];
         st := s |}
  | files =>
      {| ret := 0%Z;
         out := o ++ printf "Archivos en el área de preparación:"
                  :: ((λ f, printf (fmt_s (filename f))) <$> files);
         st := s |}
  end.

(** ** Calls and runs *)

(** A call of the interface of [git.h], with what [malloc] answers in it. *)
Inductive call :=
| Init
| Add (name : list ascii) (new_node : option FileNode)
| Rm (name : list ascii)
| Commit (msg : list ascii) (new_commit : option commitGit)
| Log
| Checkout (commit_id : list ascii)
| Ls.

Definition exec (c : call) (s : repo) : result :=
  match c with
  | Init => init_repo s
  | Add name m => add_file name m s
  | Rm name => remove_file name s
  | Commit msg m => commit msg m s
  | Log => log_commits s
  | Checkout id => checkout_commit id s
  | Ls => list_files s
  end.

(** The state after a sequence of calls, the first of the list first. *)
Definition run (cs : list call) (s : repo) : repo :=
  foldl (λ s c, st (exec c s)) s cs.

(** The states the program can be in. *)
Definition reachable (s : repo) : Prop := ∃ cs, s = run cs initial_repo.

(** ** Results *)

(** The results of [checkout_commit] when the search ends on [NULL] and when
    it ends on the commit [c]. *)
Definition checkout_not_found (commit_id : list ascii) (s : repo) : result :=
  {| ret := (-1)%Z;
     out := [printf ("Error: Commit con ID '" +:+ fmt_s commit_id +:+ "' no encontrado.")];
     st := s |}.

Definition checkout_found (commit_id : list ascii) (c : commitGit) (s : repo)
  : result :=
  {| ret := 0%Z;
     out := [printf ("Restaurado al commit: " +:+ fmt_s commit_id)];
     st := {| file_list := checkout_restore (archivos c);
              commit_list := commit_list s;
              is_repo_initialized := true |} |}.

(** The result of every guarded operation on a repository that was not
    initialized. *)
Definition not_initialized (s : repo) : result :=
  {| ret := (-1)%Z;
     out := [printf "Error: El repositorio no ha sido inicializado. Ejecuta 'init' primero."];
     st := s |}.

(** ** Shapes *)

(** A [char[MAX_ARG_LENGTH]] array whose last byte is the terminator. *)
Definition terminated (b : list ascii) : Prop :=
  length b = MAX_ARG_LENGTH ∧ b !! (MAX_ARG_LENGTH - 1) = Some NUL.

#[global] Instance terminated_dec b : Decision (terminated b).
Proof. unfold terminated. apply _. Defined.

Definition names_terminated (l : list FileNode) : Prop :=
  Forall (λ f, terminated (filename f)) l.

Definition messages_terminated (history : list commitGit) : Prop :=
  Forall (λ c, terminated (mensaje c)) history.

Definition strings_terminated (s : repo) : Prop :=
  names_terminated (file_list s) ∧ messages_terminated (commit_list s).

(** A block of [sizeof(commitGit)] bytes: [MAX_FILES] slots. *)
Definition commit_block (b : commitGit) : Prop := length (archivos b) = MAX_FILES.

(** A block none of whose slots holds a name. *)
Definition clean_block (b : commitGit) : Prop :=
  commit_block b ∧ Forall (λ slot, ¬ occupied slot) (archivos b).

(** A block filled with zero bytes, as [calloc] or a fresh page gives it. *)
Definition zero_node : FileNode := {| filename := replicate MAX_ARG_LENGTH NUL |}.
Definition zero_block : commitGit :=
  {| archivos := replicate MAX_FILES zero_node;
     mensaje := replicate MAX_ARG_LENGTH NUL |}.

(** Calls whose names fit the array and whose commit blocks are clean. *)
Definition tame (c : call) : Prop :=
  match c with
  | Add name _ => strlen name ≤ MAX_ARG_LENGTH - 1
  | Commit _ (Some block) => clean_block block
  | _ => True
  end.

Definition unique_names (s : repo) : Prop :=
  NoDup (staged s)
  ∧ strings_terminated s
  ∧ Forall (λ c, NoDup (name_of <$> checkout_restore (archivos c))) (commit_list s).

(** ** Concrete repositories *)

(** An initialized repository with nothing staged and no commit. *)
Definition ready : repo := st (init_repo initial_repo).

(** ["a"] staged in an initialized repository. *)
Definition a_staged : repo := st (add_file (lit "a") (Some zero_node) ready).

(** Two files staged, ["b"] after ["a"], then committed as ["c"] in a
    zero-filled block. *)
Definition two_files_committed : repo :=
  run [Init; Add (lit "a") (Some zero_node); Add (lit "b") (Some zero_node);
       Commit (lit "c") (Some zero_block)] initial_repo.

Definition commit_c : commitGit :=
  {| archivos := (copy_node <$> [{| filename := lit "b" |}; {| filename := lit "a" |}])
                 ++ replicate 8 zero_node;
     mensaje := bounded_copy (lit "c") |}.

(** A block of recycled memory: the second slot still holds the string
    ["y"], every other byte is zero. *)
Definition dirty_block : commitGit :=
  {| archivos := <[1 := copy_node {| filename := lit "y" |}]> (archivos zero_block);
     mensaje := mensaje zero_block |}.

(** The array of a block together with the memory of two more nodes after
    it, which hold the strings ["y"] and ["z"]. *)
Definition roomy_block : commitGit :=
  {| archivos := replicate MAX_FILES zero_node
                 ++ [copy_node {| filename := lit "y" |};
                     copy_node {| filename := lit "z" |}];
     mensaje := replicate MAX_ARG_LENGTH NUL |}.

(** A name of 50 characters, the length [MAX_ARG_LENGTH] allows. *)
Definition name50 : list ascii :=
  lit "aaaaaaaaaabbbbbbbbbbccccccccccddddddddddeeeeeeeeee".

(** Eleven files staged, ["k"] last. *)
Definition eleven_staged : repo :=
  run (Init :: ((λ n, Add (lit n) (Some zero_node))
                  <$> ["a"; "b"; "c"; "d"; "e"; "f"; "g"; "h"; "i"; "j"; "k"]%string))
      initial_repo.

(** Two commits with the message ["m"]: the older one holds ["old"], the
    newer one ["new"]. *)
Definition same_message_twice : repo :=
  run [Init; Add (lit "old") (Some zero_node); Commit (lit "m") (Some zero_block);
       Rm (lit "old"); Add (lit "new") (Some zero_node);
       Commit (lit "m") (Some zero_block)] initial_repo.

(** ** The prompt of [main.c] *)

Definition MAX_COMMAND_LENGTH : nat := 100.

Definition space : ascii := " "%char.
Definition newline : ascii := "010"%char.

(** [strspn(p, accept)] and [strcspn(p, reject)]: the length of the longest
    start of the string at [p] made of bytes of [accept], or of bytes that
    are not in [reject]. *)
Fixpoint strspn (p accept : list ascii) : nat :=
  match p with
  | [] => 0
  | c :: p' => if decide (c ≠ NUL ∧ c ∈ accept) then S (strspn p' accept) else 0
  end.

Fixpoint strcspn (p reject : list ascii) : nat :=
  match p with
  | [] => 0
  | c :: p' => if decide (c = NUL ∨ c ∈ reject) then 0 else S (strcspn p' reject)
  end.

(** [strtok] on the array [buf], started at offset [from] (the argument, or
    the pointer the call before saved): the offset of the token or [None]
    for [NULL], the array after the call, which may have a NUL written at
    the end of the token, and the offset saved for the next call. *)
Definition strtok (buf : list ascii) (from : nat) (delim : list ascii)
  : option nat * list ascii * nat :=
  let start := from + strspn (drop from buf) delim in
  if decide (strlen (drop start buf) = 0) then (None, buf, start)
  else
    let stop := start + strcspn (drop start buf) delim in
    if decide (strlen (drop stop buf) = 0) then (Some start, buf, stop)
    else (Some start, <[stop := NUL]> buf, S stop).

(** How a round of the loop of [main] ends: [continue] or the end of the
    body, and [break]; with what the round printed and the state it left. *)
Inductive round :=
| Continue (o : list event) (s : repo)
| Break (o : list event) (s : repo).

Definition round_out (r : round) : list event :=
  match r with Continue o _ | Break o _ => o end.

Definition round_st (r : round) : repo :=
  match r with Continue _ s | Break _ s => s end.

Definition continue_with (r : result) : round := Continue (out r) (st r).

(** The body of the loop of [main] after [fgets] has filled [command], with
    what [malloc] answers in this round. *)
Definition main_body (command : list ascii)
    (new_node : option FileNode) (new_commit : option commitGit) (s : repo) : round :=
  let command := <[strcspn command [newline] := NUL]> command in
  let '(token, command, saved) := strtok command 0 [space] in
  match token with
  | None => Continue [] s
  | Some t =>
    let token := drop t command in
    if strcmp_eq0 token (lit "init") then
      let r := init_repo s in
      Continue
        (out r ++ [printf (if (ret r =? 0)%Z
                           then "Repositorio inicializado correctamente."
                           else "Error al inicializar el repositorio.")])
        (st r)
    else if strcmp_eq0 token (lit "add") then
      let '(filename, command, saved) := strtok command saved [space] in
      match filename with
      | Some f => continue_with (add_file (drop f command) new_node s)
      | None => Continue [printf "Error: nombre del archivo no proporcionado."] s
      end
    else if strcmp_eq0 token (lit "rm") then
      let '(filename, command, saved) := strtok command saved [space] in
      match filename with
      | Some f => continue_with (remove_file (drop f command) s)
      | None => Continue [printf "Error: nombre del archivo no proporcionado."] s
      end
    else if strcmp_eq0 token (lit "commit") then
      let '(message, command, saved) := strtok command saved [] in
      match message with
      | Some m => continue_with (commit (drop m command) new_commit s)
      | None => Continue [printf "Error: mensaje de commit no proporcionado."] s
      end
    else if strcmp_eq0 token (lit "log") then
      continue_with (log_commits s)
    else if strcmp_eq0 token (lit "checkout") then
      let '(commit_id, command, saved) := strtok command saved [space] in
      match commit_id with
      | Some i => continue_with (checkout_commit (drop i command) s)
      | None => Continue [printf "Error: ID del commit no proporcionado."] s
      end
    else if strcmp_eq0 token (lit "ls") then
      continue_with (list_files s)
    else if strcmp_eq0 token (lit "exit") then
      Break [printf "Saliendo de uGit."] s
    else
      Continue [printf ("Comando no reconocido: " +:+ fmt_s command)] s
  end.

(** [fgets(command, n, stdin)] on what is left of the input: [None] at its
    end, else the bytes stored (at most [n - 1], through the first newline)
    and the input left. *)
Fixpoint read_line (k : nat) (stdin : list ascii) : list ascii * list ascii :=
  match k, stdin with
  | S k', c :: rest =>
      if decide (c = newline) then ([c], rest)
      else let '(l, r) := read_line k' rest in (c :: l, r)
  | _, _ => ([], stdin)
  end.

Definition fgets (n : nat) (stdin : list ascii) : option (list ascii * list ascii) :=
  match stdin with
  | [] => None
  | _ => Some (read_line (n - 1) stdin)
  end.

(** What [malloc] answers in each round of the loop. *)
Record allocator := mkAllocator {
  node_in : nat → option FileNode;
  block_in : nat → option commitGit
}.

(** What the program writes: the prompt, which ends no line, and lines. *)
Inductive console :=
| prompt_text
| line (e : event).

(** The loop of [main], for at most [fuel] rounds, the first one numbered
    [n]: what was written, and the value returned with the final state when
    a round ended on [break]. *)
Fixpoint main_loop (fuel n : nat) (heap : allocator) (stdin : list ascii) (s : repo)
  : list console * option (Z * repo) :=
  match fuel with
  | 0 => ([], None)
  | S fuel' =>
      match fgets MAX_COMMAND_LENGTH stdin with
      | None =>
          let '(o, r) := main_loop fuel' (S n) heap stdin s in
          (prompt_text :: line (printf "Error al leer el comando.") :: o, r)
      | Some (command, stdin') =>
          match main_body command (node_in heap n) (block_in heap n) s with
          | Continue o s' =>
              let '(o', r) := main_loop fuel' (S n) heap stdin' s' in
              (prompt_text :: (line <$> o) ++ o', r)
          | Break o s' => (prompt_text :: (line <$> o), Some (0%Z, s'))
          end
      end
  end.

Definition main (fuel : nat) (heap : allocator) (stdin : list ascii)
  : list console * option (Z * repo) :=
  let '(o, r) := main_loop fuel 0 heap stdin initial_repo in
  (line (printf "Bienvenido a uGit") :: o, r).

(** A run of delimiters, and a word: bytes of a string that are all in
    [delim], or none of them in [delim]. *)
Definition delimiters (delim pre : list ascii) : Prop :=
  Forall (λ c, c ≠ NUL ∧ c ∈ delim) pre.
Definition plain (delim tok : list ascii) : Prop :=
  Forall (λ c, c ≠ NUL ∧ c ∉ delim) tok.

(** The line [fgets] stored in [command]: the bytes before the first newline
    or terminator. *)
Definition line_text (command : list ascii) : list ascii :=
  take (strcspn command [newline]) command.

(** A name as the prompt passes it: not empty, without space or newline; and
    a message: not empty, without newline. *)
Definition prompt_name (name : list ascii) : Prop :=
  name ≠ [] ∧ Forall (λ c, c ≠ NUL ∧ c ≠ space ∧ c ≠ newline) name.
Definition prompt_message (msg : list ascii) : Prop :=
  msg ≠ [] ∧ Forall (λ c, c ≠ NUL ∧ c ≠ newline) msg.

(** The calls a round of the prompt can make. *)
Definition prompt_call (c : call) : Prop :=
  match c with
  | Add name _ | Rm name | Checkout name => prompt_name name
  | Commit msg _ => prompt_message msg
  | Init | Log | Ls => True
  end.

(** An allocator that always returns zero-filled memory. *)
Definition zero_heap : allocator :=
  {| node_in := λ _, Some zero_node; block_in := λ _, Some zero_block |}.

Ltac choose_word :=
  repeat match goal with
  | |- context [bool_decide (?a = ?b)] =>
      first [ change (bool_decide (a = b)) with true
            | change (bool_decide (a = b)) with false ]
  end;
  cbn iota.

Ltac not_in_word :=
  let Hin := fresh "Hin" in
  intros Hin;
  repeat (apply elem_of_cons in Hin as [?|Hin]; [discriminate|]);
  by apply elem_of_nil in Hin.

Ltac enter op Hinit :=
  unfold op, check_repo_initialized; rewrite Hinit; simpl.

(** ** Facts about C strings *)

Section c_strings.
Implicit Types p l r : list ascii.

Lemma c_str_no_NUL p : NUL ∉ c_str p.
Proof.
  induction p as [|c p IH]; simpl; [apply not_elem_of_nil|].
  case_decide; [apply not_elem_of_nil|].
  rewrite not_elem_of_cons. split; [congruence | exact IH].
Qed.

Lemma c_str_app_NUL l r : NUL ∉ l → c_str (l ++ NUL :: r) = l.
Proof.
  induction l as [|c l IH]; simpl; intros Hl.
  - done.
  - apply not_elem_of_cons in Hl as [Hc Hl].
    case_decide; [congruence|]. by rewrite IH.
Qed.

Lemma c_str_fixed l : NUL ∉ l → c_str l = l.
Proof.
  induction l as [|c l IH]; simpl; intros Hl; [done|].
  apply not_elem_of_cons in Hl as [Hc Hl].
  case_decide; [congruence|]. by rewrite IH.
Qed.

Lemma c_str_idemp p : c_str (c_str p) = c_str p.
Proof. apply c_str_fixed, c_str_no_NUL. Qed.

Lemma take_no_NUL n p : NUL ∉ take n (c_str p).
Proof.
  intros Hin. apply (c_str_no_NUL p). by apply (subseteq_take n).
Qed.

Lemma strlen_le p : strlen p ≤ length p.
Proof.
  unfold strlen. induction p as [|c p IH]; simpl; [lia|].
  case_decide; simpl; lia.
Qed.

(** What [strncpy] followed by the forced terminator leaves in an array of
    [S n] bytes: at most [n] bytes of the source, then only NUL. *)
Lemma strncpy_terminate n p :
  <[n := NUL]> (strncpy p (S n))
  = take n (c_str p) ++ replicate (S n - length (take n (c_str p))) NUL.
Proof.
  unfold strncpy. generalize (c_str p) as l. clear p. intros l.
  rewrite !length_take.
  destruct (decide (length l ≤ n)) as [Hle|Hgt].
  - rewrite !take_ge by lia.
    replace (S n `min` length l) with (length l) by lia.
    replace (n `min` length l) with (length l) by lia.
    rewrite insert_app_r_alt by lia.
    f_equal. apply insert_replicate.
  - replace (S n `min` length l) with (S n) by lia.
    replace (n `min` length l) with n by lia.
    replace (S n - S n) with 0 by lia.
    replace (S n - n) with 1 by lia. simpl. rewrite app_nil_r.
    rewrite (take_S_r l n (default NUL (l !! n))).
    + rewrite insert_app_r_alt by (rewrite length_take; lia).
      rewrite length_take. replace (n - n `min` length l) with 0 by lia. done.
    + destruct (lookup_lt_is_Some_2 l n ltac:(lia)) as [x ->]. done.
Qed.

Lemma bounded_copy_eq p :
  bounded_copy p
  = take (MAX_ARG_LENGTH - 1) (c_str p)
    ++ replicate (MAX_ARG_LENGTH - length (take (MAX_ARG_LENGTH - 1) (c_str p))) NUL.
Proof. apply (strncpy_terminate (MAX_ARG_LENGTH - 1)). Qed.

Lemma length_bounded_copy p : length (bounded_copy p) = MAX_ARG_LENGTH.
Proof.
  rewrite bounded_copy_eq, length_app, length_replicate, length_take.
  unfold MAX_ARG_LENGTH. lia.
Qed.

Lemma c_str_bounded_copy p :
  c_str (bounded_copy p) = take (MAX_ARG_LENGTH - 1) (c_str p).
Proof.
  rewrite bounded_copy_eq.
  set (l := take _ (c_str p)).
  assert (Hlen : length l ≤ MAX_ARG_LENGTH - 1) by (unfold l; rewrite length_take; lia).
  destruct (MAX_ARG_LENGTH - length l) as [|k] eqn:Hk;
    [unfold MAX_ARG_LENGTH in *; lia|].
  simpl. apply c_str_app_NUL. apply take_no_NUL.
Qed.

Lemma terminated_bounded_copy p : terminated (bounded_copy p).
Proof.
  split; [apply length_bounded_copy|].
  unfold bounded_copy. apply list_lookup_insert_eq.
  unfold strncpy. rewrite length_app, length_replicate, length_take.
  unfold MAX_ARG_LENGTH. lia.
Qed.

Lemma strlen_bounded_copy p : strlen (bounded_copy p) ≤ MAX_ARG_LENGTH - 1.
Proof. unfold strlen. rewrite c_str_bounded_copy, length_take. lia. Qed.

Lemma strlen_app_NUL l r : strlen (l ++ NUL :: r) ≤ length l.
Proof.
  unfold strlen. induction l as [|c l IH]; simpl; [lia|].
  case_decide; simpl; lia.
Qed.

Lemma terminated_strlen b : terminated b → strlen b ≤ MAX_ARG_LENGTH - 1.
Proof.
  intros [Hlen Hnul].
  rewrite <- (take_drop_middle b _ NUL Hnul).
  etrans; [apply strlen_app_NUL|]. rewrite length_take. lia.
Qed.

(** Copying a string that fits keeps it. *)
Lemma c_str_bounded_copy_fits p :
  strlen p ≤ MAX_ARG_LENGTH - 1 → c_str (bounded_copy p) = c_str p.
Proof. intros Hp. rewrite c_str_bounded_copy. by apply take_ge. Qed.

Lemma strcmp_eq0_iff a b : strcmp_eq0 a b = true ↔ c_str a = c_str b.
Proof. unfold strcmp_eq0. by rewrite bool_decide_eq_true. Qed.

Lemma strcmp_eq0_false a b : strcmp_eq0 a b = false ↔ c_str a ≠ c_str b.
Proof. unfold strcmp_eq0. by rewrite bool_decide_eq_false. Qed.

End c_strings.

(** ** Facts about the loops *)

Section loops.
Implicit Types (l files : list FileNode) (name : list ascii).

Lemma name_of_copy_node f :
  name_of (copy_node f) = take (MAX_ARG_LENGTH - 1) (name_of f).
Proof. apply c_str_bounded_copy. Qed.

Lemma name_of_copy_node_fits f :
  terminated (filename f) → name_of (copy_node f) = name_of f.
Proof. intros Hf. apply c_str_bounded_copy_fits, terminated_strlen, Hf. Qed.

(** The search of [add_file] finds a node exactly when the name compares
    equal to a staged one. *)
Lemma add_file_replace_None l name :
  add_file_replace l name = None ↔ c_str name ∉ name_of <$> l.
Proof.
  induction l as [|node l IH]; simpl.
  - split; [intros _; apply not_elem_of_nil | done].
  - destruct (strcmp_eq0 (filename node) name) eqn:Hcmp.
    + apply strcmp_eq0_iff in Hcmp. split; [done|].
      intros Hnot. exfalso. apply Hnot. rewrite <- Hcmp. left.
    + apply strcmp_eq0_false in Hcmp.
      rewrite fmap_None, IH, not_elem_of_cons. unfold name_of at 2.
      split; [intros Hl; split; [congruence | exact Hl] | intros [_ Hl]; exact Hl].
Qed.

Lemma remove_file_unlink_None l name :
  remove_file_unlink l name = None ↔ c_str name ∉ name_of <$> l.
Proof.
  induction l as [|node l IH]; simpl.
  - split; [intros _; apply not_elem_of_nil | done].
  - destruct (strcmp_eq0 (filename node) name) eqn:Hcmp.
    + apply strcmp_eq0_iff in Hcmp. split; [done|].
      intros Hnot. exfalso. apply Hnot. rewrite <- Hcmp. left.
    + apply strcmp_eq0_false in Hcmp.
      rewrite fmap_None, IH, not_elem_of_cons. unfold name_of at 2.
      split; [intros Hl; split; [congruence | exact Hl] | intros [_ Hl]; exact Hl].
Qed.

Lemma add_file_replace_Some l l' name :
  add_file_replace l name = Some l' →
  ∃ pre node post,
    l = pre ++ node :: post ∧
    Forall (λ f, name_of f ≠ c_str name) pre ∧
    name_of node = c_str name ∧
    l' = pre ++ {| filename := bounded_copy name |} :: post.
Proof.
  revert l'. induction l as [|node l IH]; simpl; intros l' Hl; [done|].
  destruct (strcmp_eq0 (filename node) name) eqn:Hcmp.
  - apply strcmp_eq0_iff in Hcmp. injection Hl as <-.
    by exists [], node, l.
  - apply strcmp_eq0_false in Hcmp.
    apply fmap_Some in Hl as (l0 & Hl0 & ->).
    destruct (IH _ Hl0) as (pre & n & post & -> & Hpre & Hn & ->).
    exists (node :: pre), n, post. split_and!; try done.
    by constructor.
Qed.

Lemma remove_file_unlink_Some l l' name :
  remove_file_unlink l name = Some l' →
  ∃ pre node post,
    l = pre ++ node :: post ∧
    Forall (λ f, name_of f ≠ c_str name) pre ∧
    name_of node = c_str name ∧
    l' = pre ++ post.
Proof.
  revert l'. induction l as [|node l IH]; simpl; intros l' Hl; [done|].
  destruct (strcmp_eq0 (filename node) name) eqn:Hcmp.
  - apply strcmp_eq0_iff in Hcmp. injection Hl as <-.
    by exists [], node, l.
  - apply strcmp_eq0_false in Hcmp.
    apply fmap_Some in Hl as (l0 & Hl0 & ->).
    destruct (IH _ Hl0) as (pre & n & post & -> & Hpre & Hn & ->).
    exists (node :: pre), n, post. split_and!; try done.
    by constructor.
Qed.

(** The copy loop of [commit], started at [index], on an array that has
    room for the slots it writes. *)
Lemma commit_copy_from files index (slots : list FileNode) :
  index ≤ MAX_FILES → MAX_FILES ≤ length slots →
  commit_copy files index slots
  = take index slots
    ++ (copy_node <$> take (MAX_FILES - index) files)
    ++ drop (index + length files `min` (MAX_FILES - index)) slots.
Proof.
  revert index slots. induction files as [|f files IH]; intros index slots Hi Hlen.
  - simpl. rewrite take_nil. simpl.
    by rewrite Nat.add_0_r, take_drop.
  - simpl. case_decide as Hlt.
    + rewrite IH by (rewrite ?length_insert; lia).
      destruct (MAX_FILES - index) as [|k] eqn:Hk; [lia|].
      replace (MAX_FILES - S index) with k by lia.
      rewrite firstn_cons, fmap_cons. simpl length.
      rewrite (take_S_r (<[index:=copy_node f]> slots) index (copy_node f))
        by (apply list_lookup_insert_eq; lia).
      rewrite take_insert_ge by lia.
      rewrite drop_insert_lt by lia.
      rewrite <- app_assoc. simpl.
      by rewrite Nat.add_succ_r.
    + replace (MAX_FILES - index) with 0 by lia. simpl.
      by rewrite Nat.add_0_r, take_drop.
Qed.

Lemma commit_copy_eq files (slots : list FileNode) :
  length slots = MAX_FILES →
  commit_copy files 0 slots
  = (copy_node <$> take MAX_FILES files)
    ++ drop (length files `min` MAX_FILES) slots.
Proof.
  intros Hlen. rewrite commit_copy_from by lia.
  by rewrite take_0, Nat.sub_0_r.
Qed.

Lemma length_commit_copy files index (slots : list FileNode) :
  length (commit_copy files index slots) = length slots.
Proof.
  revert index slots. induction files as [|f files IH]; intros index slots; [done|].
  simpl. case_decide; [|done]. by rewrite IH, length_insert.
Qed.

(** The restoring loop of [checkout_commit] pushes each occupied slot on the
    front of the list: the result is the occupied slots, last first. *)
Lemma foldl_checkout_slot (slots acc : list FileNode) :
  foldl checkout_slot acc slots
  = reverse (copy_node <$> filter occupied slots) ++ acc.
Proof.
  revert acc. induction slots as [|slot slots IH]; intros acc; [done|].
  simpl. rewrite IH. unfold checkout_slot.
  rewrite filter_cons. unfold occupied at 2.
  case_decide; [|done].
  by rewrite fmap_cons, reverse_cons, <- app_assoc.
Qed.

Lemma checkout_restore_eq (slots : list FileNode) :
  checkout_restore slots
  = reverse (copy_node <$> filter occupied (take MAX_FILES slots)).
Proof. unfold checkout_restore. by rewrite foldl_checkout_slot, app_nil_r. Qed.

End loops.

(** ** The lookup of a commit *)

Section lookup.
Implicit Types (history : list commitGit) (id : list ascii).

Lemma checkout_find_None history id :
  checkout_find history id = None
  ↔ Forall (λ c, message_of c ≠ c_str id) history.
Proof.
  induction history as [|c history IH]; simpl; [by split|].
  rewrite Forall_cons. unfold message_of at 1.
  destruct (strcmp_eq0 (mensaje c) id) eqn:Hcmp.
  - apply strcmp_eq0_iff in Hcmp. split; [done | by intros [? _]].
  - apply strcmp_eq0_false in Hcmp. rewrite IH. split; [by split | by intros [_ ?]].
Qed.

Lemma checkout_find_Some history id c :
  checkout_find history id = Some c
  ↔ ∃ pre post,
      history = pre ++ c :: post ∧
      Forall (λ c', message_of c' ≠ c_str id) pre ∧
      message_of c = c_str id.
Proof.
  induction history as [|c0 history IH]; simpl.
  - split; [done|]. intros (pre & post & Heq & _). by destruct pre.
  - destruct (strcmp_eq0 (mensaje c0) id) eqn:Hcmp.
    + apply strcmp_eq0_iff in Hcmp. split.
      * intros [= <-]. by exists [], history.
      * intros (pre & post & Heq & Hpre & Hc).
        destruct pre as [|c1 pre]; simpl in Heq.
        -- by injection Heq as -> _.
        -- injection Heq as <- _. by apply Forall_cons in Hpre as [? _].
    + apply strcmp_eq0_false in Hcmp. rewrite IH. split.
      * intros (pre & post & -> & Hpre & Hc).
        exists (c0 :: pre), post. split_and!; [done | by constructor | done].
      * intros (pre & post & Heq & Hpre & Hc).
        destruct pre as [|c1 pre]; simpl in Heq.
        -- injection Heq as <- _. done.
        -- injection Heq as <- ->. apply Forall_cons in Hpre as [_ Hpre].
           by exists pre, post.
Qed.

End lookup.

Lemma checkout_commit_Some s commit_id c :
  is_repo_initialized s = true →
  checkout_find (commit_list s) commit_id = Some c →
  checkout_commit commit_id s = checkout_found commit_id c s.
Proof. intros Hinit Hfind. enter checkout_commit Hinit. by rewrite Hfind. Qed.

Lemma checkout_commit_None s commit_id :
  is_repo_initialized s = true →
  checkout_find (commit_list s) commit_id = None →
  checkout_commit commit_id s = checkout_not_found commit_id s.
Proof. intros Hinit Hfind. enter checkout_commit Hinit. by rewrite Hfind. Qed.

(** The names the restoring loop stages, for slots with terminated arrays. *)
Lemma staged_checkout_restore (slots : list FileNode) :
  Forall (λ f, terminated (filename f)) (filter occupied (take MAX_FILES slots)) →
  name_of <$> checkout_restore slots
  = reverse (name_of <$> filter occupied (take MAX_FILES slots)).
Proof.
  intros Hterm. rewrite checkout_restore_eq, fmap_reverse. f_equal.
  rewrite <- list_fmap_compose. apply Forall_fmap_ext_1.
  eapply Forall_impl; [exact Hterm|].
  intros f Hf. by apply name_of_copy_node_fits.
Qed.

(** ** Terminated arrays in every reachable state *)

Section terminated_arrays.

Lemma st_log_commits s : st (log_commits s) = s.
Proof.
  unfold log_commits, check_repo_initialized.
  destruct (is_repo_initialized s); simpl; [|done]. by destruct (commit_list s).
Qed.

Lemma st_list_files s : st (list_files s) = s.
Proof.
  unfold list_files, check_repo_initialized.
  destruct (is_repo_initialized s); simpl; [|done]. by destruct (file_list s).
Qed.

Lemma terminated_copy_node f : terminated (filename (copy_node f)).
Proof. apply terminated_bounded_copy. Qed.

Lemma add_file_replace_terminated l l' name :
  names_terminated l → add_file_replace l name = Some l' → names_terminated l'.
Proof.
  unfold names_terminated. intros Hl Hrep.
  apply add_file_replace_Some in Hrep as (pre & node & post & -> & _ & _ & ->).
  apply Forall_app in Hl as [Hpre Hpost]. apply Forall_cons in Hpost as [_ Hpost].
  apply Forall_app. split; [done|].
  apply Forall_cons. split; [apply terminated_bounded_copy | done].
Qed.

Lemma remove_file_unlink_terminated l l' name :
  names_terminated l → remove_file_unlink l name = Some l' → names_terminated l'.
Proof.
  unfold names_terminated. intros Hl Hrm.
  apply remove_file_unlink_Some in Hrm as (pre & node & post & -> & _ & _ & ->).
  apply Forall_app in Hl as [Hpre Hpost]. apply Forall_cons in Hpost as [_ Hpost].
  apply Forall_app. by split.
Qed.

Lemma checkout_restore_terminated slots :
  names_terminated (checkout_restore slots).
Proof.
  unfold names_terminated. rewrite checkout_restore_eq.
  apply Forall_reverse, Forall_fmap, Forall_forall.
  intros f _. apply terminated_copy_node.
Qed.

Lemma exec_terminated c s :
  strings_terminated s → strings_terminated (st (exec c s)).
Proof.
  intros [Hfiles Hmsgs].
  destruct c as [|name m|name|msg m| |id|]; simpl.
  - unfold init_repo. by destruct (is_repo_initialized s).
  - unfold add_file, check_repo_initialized.
    destruct (is_repo_initialized s); simpl; [|done].
    destruct (add_file_replace (file_list s) name) as [l'|] eqn:Hrep.
    + split; [|done]. simpl. by eapply add_file_replace_terminated.
    + destruct m; [|done]. split; [|done]. simpl.
      apply Forall_cons. split; [apply terminated_bounded_copy | done].
  - unfold remove_file, check_repo_initialized.
    destruct (is_repo_initialized s); simpl; [|done].
    destruct (remove_file_unlink (file_list s) name) as [l'|] eqn:Hrm; [|done].
    split; [|done]. simpl. by eapply remove_file_unlink_terminated.
  - unfold commit, check_repo_initialized.
    destruct (is_repo_initialized s); simpl; [|done].
    destruct m; [|done]. split; [done|]. simpl.
    apply Forall_cons. split; [apply terminated_bounded_copy | done].
  - by rewrite st_log_commits.
  - unfold checkout_commit, check_repo_initialized.
    destruct (is_repo_initialized s); simpl; [|done].
    destruct (checkout_find (commit_list s) id); [|done].
    split; [|done]. apply checkout_restore_terminated.
  - by rewrite st_list_files.
Qed.

Lemma run_terminated cs s :
  strings_terminated s → strings_terminated (run cs s).
Proof.
  revert s. induction cs as [|c cs IH]; intros s Hs; [done|].
  simpl. apply IH, exec_terminated, Hs.
Qed.

Lemma reachable_terminated s : reachable s → strings_terminated s.
Proof.
  intros [cs ->]. apply run_terminated. by split; constructor.
Qed.

(** A call leaves the commits of the history as they are; only [commit]
    adds one, at the head. *)
Lemma exec_history c s :
  commit_list (st (exec c s)) = commit_list s
  ∨ ∃ msg block,
      c = Commit msg (Some block)
      ∧ commit_list (st (exec c s))
        = {| archivos := commit_copy (file_list s) 0 (archivos block);
             mensaje := bounded_copy msg |} :: commit_list s.
Proof.
  destruct c as [|name m|name|msg m| |id|]; simpl.
  - left. unfold init_repo. by destruct (is_repo_initialized s).
  - left. unfold add_file, check_repo_initialized.
    destruct (is_repo_initialized s); simpl; [|done].
    destruct (add_file_replace (file_list s) name); [done|]. by destruct m.
  - left. unfold remove_file, check_repo_initialized.
    destruct (is_repo_initialized s); simpl; [|done].
    by destruct (remove_file_unlink (file_list s) name).
  - unfold commit, check_repo_initialized.
    destruct (is_repo_initialized s); simpl; [|by left].
    destruct m as [block|]; [|by left]. right. by exists msg, block.
  - left. by rewrite st_log_commits.
  - left. unfold checkout_commit, check_repo_initialized.
    destruct (is_repo_initialized s); simpl; [|done].
    by destruct (checkout_find (commit_list s) id).
  - left. by rewrite st_list_files.
Qed.

End terminated_arrays.

(** ** Where the staged names stay distinct *)

Section distinct_names.

Lemma add_file_replace_staged l l' name :
  strlen name ≤ MAX_ARG_LENGTH - 1 →
  add_file_replace l name = Some l' → name_of <$> l' = name_of <$> l.
Proof.
  intros Hfits Hrep.
  apply add_file_replace_Some in Hrep as (pre & node & post & -> & _ & Hnode & ->).
  rewrite !fmap_app, !fmap_cons. do 2 f_equal.
  rewrite Hnode. unfold name_of. simpl. by apply c_str_bounded_copy_fits.
Qed.

(** [add_file] of a name that fits the array keeps the names distinct. *)
Lemma add_file_unique name m s :
  strlen name ≤ MAX_ARG_LENGTH - 1 →
  NoDup (staged s) → NoDup (staged (st (add_file name m s))).
Proof.
  intros Hfits Huniq. unfold add_file, check_repo_initialized.
  destruct (is_repo_initialized s); simpl; [|done].
  destruct (add_file_replace (file_list s) name) as [l'|] eqn:Hrep.
  - unfold staged. simpl. by erewrite add_file_replace_staged.
  - destruct m; [|done]. unfold staged. simpl.
    apply NoDup_cons. split; [|done].
    unfold name_of at 1. simpl. rewrite c_str_bounded_copy_fits by done.
    by apply add_file_replace_None.
Qed.

Lemma remove_file_unique name s :
  NoDup (staged s) → NoDup (staged (st (remove_file name s))).
Proof.
  intros Huniq. unfold remove_file, check_repo_initialized.
  destruct (is_repo_initialized s); simpl; [|done].
  destruct (remove_file_unlink (file_list s) name) as [l'|] eqn:Hrm; [|done].
  apply remove_file_unlink_Some in Hrm as (pre & node & post & Hl & _ & _ & ->).
  unfold staged in *. simpl. rewrite Hl in Huniq.
  rewrite fmap_app in *. rewrite fmap_cons in Huniq.
  apply NoDup_app in Huniq as (Hpre & Hdisj & Hpost).
  apply NoDup_cons in Hpost as [_ Hpost].
  apply NoDup_app. split_and!; try done.
  intros x Hx Hx'. apply (Hdisj x Hx). by right.
Qed.

Lemma commit_keeps_staging msg m s : file_list (st (commit msg m s)) = file_list s.
Proof.
  unfold commit, check_repo_initialized.
  destruct (is_repo_initialized s); simpl; [|done]. by destruct m.
Qed.

(** [checkout_commit] leaves distinct names when the commit it restores
    stores distinct names in terminated arrays. *)
Lemma checkout_commit_unique id c s :
  is_repo_initialized s = true →
  checkout_find (commit_list s) id = Some c →
  names_terminated (stored_entries c) →
  NoDup (name_of <$> stored_entries c) →
  NoDup (staged (st (checkout_commit id s))).
Proof.
  intros Hinit Hfind Hterm Huniq.
  rewrite (checkout_commit_Some s id c) by done. unfold staged. simpl.
  rewrite staged_checkout_restore by done. by rewrite reverse_Permutation.
Qed.

(** The names [checkout_commit] would stage from a commit made in a clean
    block are staged names, each once. *)
Lemma restore_commit_copy_unique files (block : commitGit) :
  clean_block block →
  names_terminated files →
  NoDup (name_of <$> files) →
  NoDup (name_of <$> checkout_restore (commit_copy files 0 (archivos block))).
Proof.
  intros [Hblock Hclean] Hterm Huniq.
  rewrite commit_copy_eq by done.
  rewrite checkout_restore_eq, fmap_reverse, reverse_Permutation.
  rewrite take_ge by (rewrite length_app, length_fmap, length_take, length_drop;
                      unfold commit_block in Hblock; lia).
  rewrite filter_app.
  assert (filter occupied (drop (length files `min` MAX_FILES) (archivos block)) = [])
    as ->.
  { apply (Forall_drop _ (length files `min` MAX_FILES)) in Hclean.
    induction Hclean as [|x l Hx _ IH]; [done|]. by rewrite filter_cons_False. }
  rewrite app_nil_r.
  apply (Forall_take _ MAX_FILES) in Hterm.
  assert (NoDup (name_of <$> take MAX_FILES files)) as Huniq'.
  { rewrite fmap_take. eapply sublist_NoDup; [done | apply sublist_take]. }
  revert Hterm Huniq'. generalize (take MAX_FILES files). clear. intros l Hterm Huniq.
  induction l as [|f l IH]; [constructor|].
  apply Forall_cons in Hterm as [Hf Hterm].
  rewrite fmap_cons in Huniq. apply NoDup_cons in Huniq as [Hnotin Huniq].
  rewrite fmap_cons, filter_cons. case_decide; [|by apply IH].
  rewrite !fmap_cons. apply NoDup_cons. split; [|by apply IH].
  rewrite name_of_copy_node_fits by apply terminated_copy_node.
  rewrite name_of_copy_node_fits by done.
  intros Hin. apply Hnotin.
  apply list_elem_of_fmap in Hin as (g' & -> & Hg').
  apply list_elem_of_fmap in Hg' as (g & -> & Hg).
  apply list_elem_of_filter in Hg as [_ Hg].
  apply list_elem_of_fmap in Hg as (h & -> & Hh).
  rewrite Forall_forall in Hterm.
  rewrite name_of_copy_node_fits by apply terminated_copy_node.
  rewrite name_of_copy_node_fits by (by apply Hterm).
  by apply list_elem_of_fmap_2.
Qed.

Lemma exec_unique c s : tame c → unique_names s → unique_names (st (exec c s)).
Proof.
  intros Htame (Huniq & Hterm & Hhist).
  split; [|split; [by apply exec_terminated|]].
  - destruct c as [|name m|name|msg m| |id|]; simpl.
    + unfold init_repo. by destruct (is_repo_initialized s).
    + by apply add_file_unique.
    + by apply remove_file_unique.
    + unfold staged. by rewrite commit_keeps_staging.
    + by rewrite st_log_commits.
    + unfold checkout_commit, check_repo_initialized.
      destruct (is_repo_initialized s); simpl; [|done].
      destruct (checkout_find (commit_list s) id) as [c|] eqn:Hfind; [|done].
      apply checkout_find_Some in Hfind as (pre & post & Heq & _ & _).
      rewrite Forall_forall in Hhist. apply Hhist. rewrite Heq.
      apply elem_of_app. right. left.
    + by rewrite st_list_files.
  - destruct c as [|name m|name|msg m| |id|]; simpl.
    + unfold init_repo. by destruct (is_repo_initialized s).
    + unfold add_file, check_repo_initialized.
      destruct (is_repo_initialized s); simpl; [|done].
      destruct (add_file_replace (file_list s) name); [done|]. by destruct m.
    + unfold remove_file, check_repo_initialized.
      destruct (is_repo_initialized s); simpl; [|done].
      by destruct (remove_file_unlink (file_list s) name).
    + unfold commit, check_repo_initialized.
      destruct (is_repo_initialized s); simpl; [|done].
      destruct m as [block|]; [|done]. simpl.
      apply Forall_cons. split; [|done]. simpl.
      apply restore_commit_copy_unique; [done | apply Hterm | done].
    + by rewrite st_log_commits.
    + unfold checkout_commit, check_repo_initialized.
      destruct (is_repo_initialized s); simpl; [|done].
      by destruct (checkout_find (commit_list s) id).
    + by rewrite st_list_files.
Qed.

(** Along a run of tame calls no two staged entries share a name. *)
Lemma run_unique cs : Forall tame cs → NoDup (staged (run cs initial_repo)).
Proof.
  intros Htame.
  assert (unique_names (run cs initial_repo)) as [Huniq _]; [|done].
  assert (unique_names initial_repo) as Hinit
    by (split_and!; [constructor | by split; constructor | constructor]).
  revert Hinit. generalize initial_repo.
  induction Htame as [|c cs Hc _ IH]; intros s Hs; [done|].
  simpl. apply IH, exec_unique; done.
Qed.

End distinct_names.


(** ** The round trip through a commit on a clean block *)

(** On a block whose slots past the first hold no name, a zero-filled one for
    instance, the same calls leave exactly ["x"] staged. *)
Lemma commit_roundtrip_on_clean_block (s : repo) (node : FileNode) (block : commitGit) :
  is_repo_initialized s = true → file_list s = [] → commit_list s = [] →
  commit_block block →
  Forall (λ slot, ¬ occupied slot) (drop 1 (archivos block)) →
  staged (run [Add (lit "x") (Some node); Commit (lit "first") (Some block);
               Rm (lit "x"); Checkout (lit "first")] s)
  = [lit "x"].
Proof.
  destruct s as [files history init]. simpl. intros -> -> -> Hblock Hclean.
  destruct block as [slots msg]. unfold commit_block in Hblock. simpl in *.
  destruct slots as [|slot0 slots]; [done|]. simpl in Hclean.
  unfold run. simpl. unfold staged. simpl.
  unfold checkout_restore. rewrite foldl_checkout_slot, app_nil_r.
  rewrite take_ge by (simpl in *; lia).
  rewrite filter_cons_True by (unfold occupied; vm_compute; lia).
  assert (filter occupied slots = []) as ->.
  { clear Hblock. induction slots as [|x slots IH]; [done|].
    apply Forall_cons in Hclean as [Hx Hclean].
    rewrite filter_cons_False by done. by apply IH. }
  by vm_compute.
Qed.

Example commit_roundtrip_on_zero_block :
  staged (run [Add (lit "x") (Some zero_node); Commit (lit "first") (Some zero_block);
               Rm (lit "x"); Checkout (lit "first")] ready)
  = [lit "x"].
Proof.
  apply (commit_roundtrip_on_clean_block ready zero_node zero_block);
    try reflexivity.
  vm_compute. repeat constructor; lia.
Qed.

(** ** Checked properties *)

(** C1, as stated, fails: after [checkout_commit] of a commit that stores
    ["b"] then ["a"], the staging list is ["a"] then ["b"]. *)
Lemma checkout_commit_order_counterexample :
  checkout_find (commit_list two_files_committed) (lit "c") = Some commit_c
  ∧ name_of <$> stored_entries commit_c = [lit "b"; lit "a"]
  ∧ staged (st (checkout_commit (lit "c") two_files_committed)) = [lit "a"; lit "b"]
  ∧ staged (st (checkout_commit (lit "c") two_files_committed))
    ≠ name_of <$> stored_entries commit_c.
Proof. split_and!; [by vm_compute..|]. vm_compute. discriminate. Qed.

(** What the restoring loop stages from the array [commit] filled from
    [files], when the slots [commit] did not write hold no name and the names
    it stored are not empty: fresh copies of the stored entries, last first. *)
Lemma checkout_restore_commit_copy (files slots : list FileNode) :
  length slots = MAX_FILES →
  Forall (λ slot, ¬ occupied slot) (drop (length files `min` MAX_FILES) slots) →
  Forall occupied (take MAX_FILES files) →
  checkout_restore (commit_copy files 0 slots)
  = reverse (copy_node <$> (copy_node <$> take MAX_FILES files)).
Proof.
  intros Hlen Hclean Hnames.
  rewrite commit_copy_eq by done.
  rewrite checkout_restore_eq. f_equal. f_equal.
  rewrite take_ge by (rewrite length_app, length_fmap, length_take, length_drop; lia).
  rewrite filter_app.
  assert (filter occupied (drop (length files `min` MAX_FILES) slots) = []) as ->.
  { induction Hclean as [|x l Hx _ IH]; [done|]. by rewrite filter_cons_False. }
  rewrite app_nil_r.
  induction Hnames as [|f l Hf _ IH]; [done|].
  rewrite fmap_cons, filter_cons_True, IH; [done|].
  unfold occupied, strlen in *. fold (name_of (copy_node f)).
  rewrite name_of_copy_node, length_take. unfold name_of, MAX_ARG_LENGTH. lia.
Qed.

(** C1, amended. Let [c] be a commit that [commit] recorded, in a block whose
    slots past the ones it wrote hold no name, from staged files of non-empty
    name; the entries [c] stores are the copies [commit] wrote, in the order
    of its array.  On an initialized repository where [commit_id] finds [c],
    [checkout_commit] returns 0, keeps the history, and replaces the staging
    list by fresh copies of the entries [c] stores, in the reverse of their
    stored order. *)
Theorem checkout_commit_restores_reversed
    (s0 s : repo) (msg commit_id : list ascii) (block c : commitGit) :
  is_repo_initialized s0 = true →
  commit_block block →
  commit_list (st (commit msg (Some block) s0)) = c :: commit_list s0 →
  Forall (λ slot, ¬ occupied slot)
    (drop (length (file_list s0) `min` MAX_FILES) (archivos block)) →
  Forall occupied (take MAX_FILES (file_list s0)) →
  is_repo_initialized s = true →
  checkout_find (commit_list s) commit_id = Some c →
  let stored := copy_node <$> take MAX_FILES (file_list s0) in
  let r := checkout_commit commit_id s in
  take (length stored) (archivos c) = stored
  ∧ ret r = 0%Z
  ∧ commit_list (st r) = commit_list s
  ∧ file_list (st r) = reverse (copy_node <$> stored)
  ∧ staged (st r) = reverse (name_of <$> stored).
Proof.
  intros Hinit0 Hblock Hc Hclean Hnames Hinit Hfind stored r.
  assert (archivos c = commit_copy (file_list s0) 0 (archivos block)) as Harch.
  { revert Hc. enter commit Hinit0. by intros [= <- ]. }
  unfold r. rewrite (checkout_commit_Some s commit_id c) by done. simpl.
  rewrite Harch, checkout_restore_commit_copy by done. fold stored.
  split_and!; try done.
  - rewrite commit_copy_eq by done. fold stored.
    by rewrite take_app_length.
  - unfold staged. simpl. rewrite fmap_reverse. f_equal.
    unfold stored. rewrite <- !list_fmap_compose. apply list_fmap_ext.
    intros _ f _. simpl.
    by rewrite name_of_copy_node_fits by apply terminated_copy_node.
Qed.

Lemma checkout_commit_restores_reversed_witness :
  let s0 := run [Init; Add (lit "a") (Some zero_node); Add (lit "b") (Some zero_node)]
              initial_repo in
  (is_repo_initialized s0 = true
   ∧ commit_block zero_block
   ∧ commit_list (st (commit (lit "c") (Some zero_block) s0)) = commit_c :: commit_list s0
   ∧ Forall (λ slot, ¬ occupied slot)
       (drop (length (file_list s0) `min` MAX_FILES) (archivos zero_block))
   ∧ Forall occupied (take MAX_FILES (file_list s0))
   ∧ is_repo_initialized two_files_committed = true
   ∧ checkout_find (commit_list two_files_committed) (lit "c") = Some commit_c)
  ∧ name_of <$> take 2 (archivos commit_c) = [lit "b"; lit "a"]
  ∧ staged (st (checkout_commit (lit "c") two_files_committed)) = [lit "a"; lit "b"].
Proof.
  intros s0.
  assert (commit_list (st (commit (lit "c") (Some zero_block) s0))
          = commit_c :: commit_list s0) as Hc by (by vm_compute).
  assert (Forall (λ slot, ¬ occupied slot)
            (drop (length (file_list s0) `min` MAX_FILES) (archivos zero_block)))
    as Hclean by (vm_compute; repeat constructor; lia).
  assert (Forall occupied (take MAX_FILES (file_list s0))) as Hnames
    by (vm_compute; repeat constructor).
  assert (checkout_find (commit_list two_files_committed) (lit "c") = Some commit_c)
    as Hfind by (by vm_compute).
  split; [by split_and!|].
  destruct (checkout_commit_restores_reversed s0 two_files_committed (lit "c") (lit "c")
              zero_block commit_c eq_refl eq_refl Hc Hclean Hnames eq_refl Hfind)
    as (_ & _ & _ & _ & Hstaged).
  split; [reflexivity | by rewrite Hstaged].
Defined.

(** C2 at a block of recycled memory: [add_file("x")], [commit("first")],
    [remove_file("x")], [checkout_commit("first")] leave two entries staged,
    the stale ["y"] of the block and ["x"]. *)
Theorem commit_roundtrip_on_dirty_block :
  staged (run [Add (lit "x") (Some zero_node); Commit (lit "first") (Some dirty_block);
               Rm (lit "x"); Checkout (lit "first")] ready)
  = [lit "y"; lit "x"].
Proof. by vm_compute. Qed.

(** C3. On an initialized repository, when no commit of the history has a
    message equal to [commit_id], [checkout_commit] returns -1, reports that
    the commit was not found, and leaves the whole state, the staging list
    included, as it was. *)
Theorem checkout_commit_not_found_unchanged (s : repo) (commit_id : list ascii) :
  is_repo_initialized s = true →
  Forall (λ c, message_of c ≠ c_str commit_id) (commit_list s) →
  checkout_commit commit_id s = checkout_not_found commit_id s
  ∧ file_list (st (checkout_commit commit_id s)) = file_list s
  ∧ staged (st (checkout_commit commit_id s)) = staged s.
Proof.
  intros Hinit Hnone. apply checkout_find_None in Hnone.
  by rewrite checkout_commit_None.
Qed.

Lemma checkout_commit_not_found_unchanged_witness :
  is_repo_initialized two_files_committed = true
  ∧ Forall (λ c, message_of c ≠ c_str (lit "does-not-exist"))
      (commit_list two_files_committed)
  ∧ staged (st (checkout_commit (lit "does-not-exist") two_files_committed))
    = staged two_files_committed.
Proof.
  assert (Forall (λ c, message_of c ≠ c_str (lit "does-not-exist"))
            (commit_list two_files_committed)) as Hnone.
  { vm_compute. repeat constructor. discriminate. }
  split; [reflexivity|]. split; [exact Hnone|].
  apply (checkout_commit_not_found_unchanged two_files_committed
           (lit "does-not-exist") eq_refl Hnone).
Defined.

(** C4 at a name of [MAX_ARG_LENGTH] characters: the search of [add_file]
    compares the stored name, cut to 49 characters, with the whole argument,
    finds no match, and the second call stages a second entry of the same
    name. *)
Theorem add_file_twice_long_name_duplicates :
  let s := run [Add name50 (Some zero_node); Add name50 (Some zero_node)] ready in
  length name50 = MAX_ARG_LENGTH
  ∧ staged s = [take 49 name50; take 49 name50]
  ∧ ¬ NoDup (staged s).
Proof.
  split; [reflexivity|]. split; [by vm_compute|].
  vm_compute. intros Hdup. apply NoDup_cons in Hdup as [Hin _].
  apply Hin. left.
Qed.

(** C5. On a repository that was not initialized, each of [add_file],
    [remove_file], [commit], [log_commits], [checkout_commit] and
    [list_files] returns -1, prints the not-initialized error, and leaves the
    staging list and the history as they were. *)
Theorem uninitialized_calls_fail_unchanged (s : repo) (c : call) :
  is_repo_initialized s = false →
  c ≠ Init →
  exec c s = not_initialized s
  ∧ file_list (st (exec c s)) = file_list s
  ∧ commit_list (st (exec c s)) = commit_list s.
Proof.
  intros Huninit Hc.
  destruct c; try done; simpl;
    [ enter add_file Huninit | enter remove_file Huninit | enter commit Huninit
    | enter log_commits Huninit | enter checkout_commit Huninit
    | enter list_files Huninit ]; done.
Qed.

Lemma uninitialized_calls_fail_unchanged_witness :
  is_repo_initialized initial_repo = false
  ∧ exec (Add (lit "x") (Some zero_node)) initial_repo = not_initialized initial_repo.
Proof.
  split; [reflexivity|].
  apply (uninitialized_calls_fail_unchanged initial_repo
           (Add (lit "x") (Some zero_node)) eq_refl).
  discriminate.
Defined.

(** C6. On an initialized, reachable repository with more than [MAX_FILES]
    staged files, [commit] returns 0 and reports only the creation; the new
    commit, at the head of the history, fills its [MAX_FILES] slots with
    copies of the first [MAX_FILES] staged files, in staging order, and the
    names it stores are their names.  The staging list is not changed. *)
Theorem commit_over_capacity_keeps_first (s : repo) (msg : list ascii) (block : commitGit) :
  reachable s →
  is_repo_initialized s = true →
  commit_block block →
  MAX_FILES < length (file_list s) →
  let r := commit msg (Some block) s in
  ret r = 0%Z
  ∧ out r = [printf ("Commit creado con éxito: " +:+ fmt_s msg)]
  ∧ file_list (st r) = file_list s
  ∧ ∃ c, commit_list (st r) = c :: commit_list s
         ∧ archivos c = copy_node <$> take MAX_FILES (file_list s)
         ∧ length (archivos c) = MAX_FILES
         ∧ name_of <$> stored_entries c
           = filter (λ n, 0 < length n) (take MAX_FILES (staged s))
         ∧ name_of <$> archivos c = take MAX_FILES (staged s).
Proof.
  intros Hreach Hinit Hblock Hmore r. unfold r. enter commit Hinit.
  split_and!; try done.
  eexists. split; [done|]. simpl.
  apply reachable_terminated in Hreach as [Hfiles _].
  assert (commit_copy (file_list s) 0 (archivos block)
          = copy_node <$> take MAX_FILES (file_list s)) as Hcopy.
  { rewrite commit_copy_eq by done.
    rewrite drop_ge by (unfold commit_block in Hblock; lia). apply app_nil_r. }
  assert (name_of <$> (copy_node <$> take MAX_FILES (file_list s))
          = take MAX_FILES (staged s)) as Hnames.
  { unfold staged. rewrite <- fmap_take, <- list_fmap_compose.
    apply Forall_fmap_ext_1.
    eapply Forall_impl; [apply Forall_take, Hfiles|].
    intros f Hf. by apply name_of_copy_node_fits. }
  rewrite Hcopy. split_and!; try done.
  - rewrite length_fmap, length_take. lia.
  - unfold stored_entries. simpl.
    rewrite take_ge by (rewrite length_fmap, length_take; lia).
    rewrite <- Hnames. generalize (copy_node <$> take MAX_FILES (file_list s)).
    intros l. induction l as [|f l IH]; [done|].
    rewrite fmap_cons, !filter_cons. unfold occupied at 1, strlen, name_of at 2.
    case_decide; case_decide; try lia; by rewrite ?fmap_cons, IH.
Qed.

Lemma commit_over_capacity_keeps_first_witness :
  reachable eleven_staged
  ∧ MAX_FILES < length (file_list eleven_staged)
  ∧ ∃ c, commit_list (st (commit (lit "big") (Some zero_block) eleven_staged)) = [c]
         ∧ name_of <$> archivos c
           = lit <$> ["k"; "j"; "i"; "h"; "g"; "f"; "e"; "d"; "c"; "b"]%string.
Proof.
  assert (reachable eleven_staged) as Hreach by (by eexists).
  assert (MAX_FILES < length (file_list eleven_staged)) as Hmore by (vm_compute; lia).
  split; [done|]. split; [done|].
  destruct (commit_over_capacity_keeps_first eleven_staged (lit "big") zero_block
              Hreach eq_refl eq_refl Hmore)
    as (_ & _ & _ & c & Hc & _ & _ & _ & Hnames).
  exists c. split; [exact Hc | exact Hnames].
Defined.

(** C7. On an initialized repository [checkout_commit] either restores the
    first commit of the history, from its head, whose stored message is
    byte for byte the string [commit_id], whatever comes after it, or finds
    no commit with that message and then returns -1 with the not-found
    report. *)
Theorem checkout_commit_first_match (s : repo) (commit_id : list ascii) :
  is_repo_initialized s = true →
  (∃ pre c post,
      commit_list s = pre ++ c :: post
      ∧ Forall (λ c', message_of c' ≠ c_str commit_id) pre
      ∧ message_of c = c_str commit_id
      ∧ checkout_commit commit_id s = checkout_found commit_id c s)
  ∨ (Forall (λ c, message_of c ≠ c_str commit_id) (commit_list s)
     ∧ checkout_commit commit_id s = checkout_not_found commit_id s).
Proof.
  intros Hinit.
  destruct (checkout_find (commit_list s) commit_id) as [c|] eqn:Hfind.
  - left. pose proof Hfind as Hc.
    apply checkout_find_Some in Hc as (pre & post & Heq & Hpre & Hmsg).
    exists pre, c, post. split_and!; try done.
    by apply checkout_commit_Some.
  - right. split; [by apply checkout_find_None|].
    by apply checkout_commit_None.
Qed.

Lemma checkout_commit_first_match_witness :
  is_repo_initialized same_message_twice = true
  ∧ ((∃ pre c post,
        commit_list same_message_twice = pre ++ c :: post
        ∧ Forall (λ c', message_of c' ≠ c_str (lit "m")) pre
        ∧ message_of c = c_str (lit "m")
        ∧ checkout_commit (lit "m") same_message_twice
          = checkout_found (lit "m") c same_message_twice)
     ∨ (Forall (λ c, message_of c ≠ c_str (lit "m")) (commit_list same_message_twice)
        ∧ checkout_commit (lit "m") same_message_twice
          = checkout_not_found (lit "m") same_message_twice))
  ∧ (message_of <$> commit_list same_message_twice = [lit "m"; lit "m"]
     ∧ staged (st (checkout_commit (lit "m") same_message_twice)) = [lit "new"]).
Proof.
  split; [reflexivity|].
  split; [exact (checkout_commit_first_match same_message_twice (lit "m") eq_refl)|].
  split; reflexivity.
Defined.

(** C8. On an initialized repository two calls of [commit] put their commits
    at the head of the history, the second before the first, each with its
    message cut to 49 characters, and [log_commits] then returns 0 and
    prints, after its heading, the messages from the head: the second, the
    first, then those of the commits that were there before. *)
Theorem log_commits_newest_first
    (s : repo) (m1 m2 : list ascii) (b1 b2 : commitGit) :
  is_repo_initialized s = true →
  let s1 := st (commit m1 (Some b1) s) in
  let s2 := st (commit m2 (Some b2) s1) in
  (∃ c1 c2, commit_list s1 = c1 :: commit_list s
            ∧ commit_list s2 = c2 :: c1 :: commit_list s
            ∧ message_of c1 = take (MAX_ARG_LENGTH - 1) (c_str m1)
            ∧ message_of c2 = take (MAX_ARG_LENGTH - 1) (c_str m2))
  ∧ log_commits s2
    = {| ret := 0%Z;
         out := printf "==Historial de Commits=="
                :: printf (string_of_list_ascii (take (MAX_ARG_LENGTH - 1) (c_str m2)))
                :: printf (string_of_list_ascii (take (MAX_ARG_LENGTH - 1) (c_str m1)))
                :: ((λ c, printf (string_of_list_ascii (message_of c))) <$> commit_list s);
         st := s2 |}.
Proof.
  intros Hinit s1 s2. unfold s2, s1. enter commit Hinit.
  split.
  - do 2 eexists. split_and!; try done; apply c_str_bounded_copy.
  - unfold log_commits, check_repo_initialized. simpl.
    unfold fmt_s. by rewrite !c_str_bounded_copy.
Qed.

Lemma log_commits_newest_first_witness :
  is_repo_initialized ready = true
  ∧ out (log_commits
           (st (commit (lit "m2") (Some zero_block)
                  (st (commit (lit "m1") (Some zero_block) ready)))))
    = [printf "==Historial de Commits=="; printf "m2"; printf "m1"].
Proof.
  split; [reflexivity|].
  destruct (log_commits_newest_first ready (lit "m1") (lit "m2") zero_block zero_block
              eq_refl) as [_ Hlog].
  rewrite Hlog. reflexivity.
Defined.

(** C9, as stated, fails: [add_file] returns 0 both when it stages ["a"] and
    when it replaces it, and [remove_file] returns -1 both when ["a"] is not
    staged and when the repository was not initialized. *)
Lemma return_values_counterexample :
  (out (add_file (lit "a") (Some zero_node) ready)
     = [printf "Archivo a agregado al área de preparación."]
   ∧ out (add_file (lit "a") (Some zero_node) a_staged)
     = [printf "El archivo a ya existe. Reemplazando el archivo."]
   ∧ ret (add_file (lit "a") (Some zero_node) ready)
     = ret (add_file (lit "a") (Some zero_node) a_staged))
  ∧ (out (remove_file (lit "a") ready) = [printf "Archivo no encontrado: a"]
     ∧ out (remove_file (lit "a") initial_repo) = out (not_initialized initial_repo)
     ∧ ret (remove_file (lit "a") ready) = ret (remove_file (lit "a") initial_repo)).
Proof. by vm_compute. Qed.

(** Every operation returns 0 or -1. *)
Lemma ret_exec (c : call) (s : repo) :
  ret (exec c s) = 0%Z ∨ ret (exec c s) = (-1)%Z.
Proof.
  destruct c as [|name m|name|msg m| |id|]; simpl.
  - left. unfold init_repo. by destruct (is_repo_initialized s).
  - unfold add_file, check_repo_initialized.
    destruct (is_repo_initialized s); simpl; [|by right].
    destruct (add_file_replace (file_list s) name); [by left|].
    destruct m; [by left | by right].
  - unfold remove_file, check_repo_initialized.
    destruct (is_repo_initialized s); simpl; [|by right].
    destruct (remove_file_unlink (file_list s) name); [by left | by right].
  - unfold commit, check_repo_initialized.
    destruct (is_repo_initialized s); simpl; [|by right].
    destruct m; [by left | by right].
  - unfold log_commits, check_repo_initialized.
    destruct (is_repo_initialized s); simpl; [|by right].
    left. by destruct (commit_list s).
  - unfold checkout_commit, check_repo_initialized.
    destruct (is_repo_initialized s); simpl; [|by right].
    destruct (checkout_find (commit_list s) id); [by left | by right].
  - unfold list_files, check_repo_initialized.
    destruct (is_repo_initialized s); simpl; [|by right].
    left. by destruct (file_list s).
Qed.

(** C9, amended. Every operation returns one of two values to its caller,
    0 or -1, and they do not tell all outcomes apart: [add_file] returns 0
    both for a new name and for a name already staged, and [remove_file]
    returns -1 both for a name that is not staged and for a repository that
    was not initialized; in each pair only the printed line differs. *)
Theorem outcomes_differ_in_output_only
    (s_new s_old s_off : repo) (name : list ascii) (node : FileNode) :
  is_repo_initialized s_new = true →
  is_repo_initialized s_old = true →
  is_repo_initialized s_off = false →
  c_str name ∉ staged s_new →
  c_str name ∈ staged s_old →
  (∀ c s, ret (exec c s) = 0%Z ∨ ret (exec c s) = (-1)%Z)
  ∧ (ret (add_file name (Some node) s_new) = 0%Z
   ∧ ret (add_file name (Some node) s_old) = 0%Z
   ∧ out (add_file name (Some node) s_new) ≠ out (add_file name (Some node) s_old))
  ∧ (ret (remove_file name s_new) = (-1)%Z
     ∧ ret (remove_file name s_off) = (-1)%Z
     ∧ out (remove_file name s_new) ≠ out (remove_file name s_off)).
Proof.
  intros Hnew Hold Hoff Hfresh Hstaged.
  split; [exact ret_exec|].
  pose proof Hfresh as Hrep. apply add_file_replace_None in Hrep.
  pose proof Hfresh as Hrm. apply remove_file_unlink_None in Hrm.
  destruct (add_file_replace (file_list s_old) name) as [l|] eqn:Hrep';
    [|by apply add_file_replace_None in Hrep'].
  unfold add_file, remove_file, check_repo_initialized.
  rewrite Hnew, Hold, Hoff, Hrep, Hrep', Hrm. simpl.
  split_and!; try done; intros [=].
Qed.

Lemma outcomes_differ_in_output_only_witness :
  (c_str (lit "a") ∉ staged ready)
  ∧ (c_str (lit "a") ∈ staged a_staged)
  ∧ ret (add_file (lit "a") (Some zero_node) ready) = 0%Z
  ∧ ret (add_file (lit "a") (Some zero_node) a_staged) = 0%Z
  ∧ ret (remove_file (lit "a") ready) = (-1)%Z
  ∧ ret (remove_file (lit "a") initial_repo) = (-1)%Z.
Proof.
  assert (c_str (lit "a") ∉ staged ready) as Hfresh by (vm_compute; apply not_elem_of_nil).
  assert (c_str (lit "a") ∈ staged a_staged) as Hstaged by (vm_compute; left).
  destruct (outcomes_differ_in_output_only ready a_staged initial_repo (lit "a") zero_node
              eq_refl eq_refl eq_refl Hfresh Hstaged)
    as (_ & (Hadd1 & Hadd2 & _) & (Hrm1 & Hrm2 & _)).
  by split_and!.
Defined.

(** C10. In every state the program reaches, whatever the lengths of the
    strings its calls were given, every [filename] array of the staging list
    and every [mensaje] array of the history has [MAX_ARG_LENGTH] bytes, ends
    in the terminator and holds a string of at most [MAX_ARG_LENGTH - 1]
    characters.  [commit] leaves such an array in every slot it writes and in
    the message, which is the given one cut to [MAX_ARG_LENGTH - 1]
    characters; [add_file] stores a new name cut in the same way. *)
Theorem stored_strings_bounded (cs : list call) :
  let s := run cs initial_repo in
  Forall (λ f, terminated (filename f) ∧ strlen (filename f) ≤ MAX_ARG_LENGTH - 1)
    (file_list s)
  ∧ Forall (λ c, terminated (mensaje c) ∧ strlen (mensaje c) ≤ MAX_ARG_LENGTH - 1)
      (commit_list s)
  ∧ (∀ msg block,
      is_repo_initialized s = true → commit_block block →
      ∃ c, commit_list (st (commit msg (Some block) s)) = c :: commit_list s
           ∧ message_of c = take (MAX_ARG_LENGTH - 1) (c_str msg)
           ∧ take (length (file_list s)) (archivos c)
             = copy_node <$> take MAX_FILES (file_list s)
           ∧ Forall (λ f, terminated (filename f))
               (take (length (file_list s)) (archivos c)))
  ∧ (∀ name node,
      is_repo_initialized s = true → c_str name ∉ staged s →
      staged (st (add_file name (Some node) s))
      = take (MAX_ARG_LENGTH - 1) (c_str name) :: staged s).
Proof.
  intros s.
  destruct (run_terminated cs initial_repo) as [Hfiles Hmsgs];
    [by split; constructor|]. fold s in Hfiles, Hmsgs.
  split_and!.
  - eapply Forall_impl; [exact Hfiles|]. intros f Hf. split; [done|].
    by apply terminated_strlen.
  - eapply Forall_impl; [exact Hmsgs|]. intros c Hc. split; [done|].
    by apply terminated_strlen.
  - intros msg block Hinit Hblock. enter commit Hinit.
    eexists. split; [done|]. simpl.
    split; [apply c_str_bounded_copy|].
    rewrite commit_copy_eq by done.
    assert (take (length (file_list s))
              ((copy_node <$> take MAX_FILES (file_list s))
               ++ drop (length (file_list s) `min` MAX_FILES) (archivos block))
            = copy_node <$> take MAX_FILES (file_list s)) as ->.
    { destruct (decide (length (file_list s) ≤ MAX_FILES)) as [Hle|Hgt].
      - rewrite take_app_le by (rewrite length_fmap, length_take; lia).
        rewrite take_ge; [done|]. rewrite length_fmap, length_take. lia.
      - rewrite take_app_ge by (rewrite length_fmap, length_take; lia).
        rewrite length_fmap, length_take.
        rewrite drop_ge by (unfold commit_block in Hblock; lia).
        by rewrite take_nil, app_nil_r. }
    split; [done|].
    apply Forall_fmap, Forall_forall. intros f _. apply terminated_copy_node.
  - intros name node Hinit Hfresh. enter add_file Hinit.
    apply add_file_replace_None in Hfresh. rewrite Hfresh. simpl.
    unfold staged. simpl. f_equal. apply c_str_bounded_copy.
Qed.

Lemma stored_strings_bounded_witness :
  let s := run [Init; Add name50 (Some zero_node)] initial_repo in
  (is_repo_initialized s = true ∧ commit_block zero_block ∧ c_str (lit "z") ∉ staged s)
  ∧ Forall (λ f, terminated (filename f) ∧ strlen (filename f) ≤ MAX_ARG_LENGTH - 1)
      (file_list s)
  ∧ (∃ c, commit_list (st (commit name50 (Some zero_block) s)) = c :: commit_list s
          ∧ message_of c = take (MAX_ARG_LENGTH - 1) (c_str name50))
  ∧ staged (st (add_file (lit "z") (Some zero_node) s))
    = take (MAX_ARG_LENGTH - 1) (c_str (lit "z")) :: staged s.
Proof.
  intros s.
  assert (c_str (lit "z") ∉ staged s) as Hfresh.
  { vm_compute. intros Hin. apply elem_of_cons in Hin as [Heq|Hin];
      [discriminate | by apply elem_of_nil in Hin]. }
  destruct (stored_strings_bounded [Init; Add name50 (Some zero_node)])
    as (Hfiles & _ & Hcommit & Hadd).
  split; [by split_and!|]. split; [exact Hfiles|]. split.
  - destruct (Hcommit name50 zero_block eq_refl eq_refl) as (c & Hc & Hmsg & _).
    exists c. by split.
  - exact (Hadd (lit "z") zero_node eq_refl Hfresh).
Defined.

(** ** The staging list under [init_repo], [add_file] and [remove_file] *)

Section staging.
Implicit Types (s : repo) (name : list ascii).

Lemma add_file_fresh name node s :
  is_repo_initialized s = true → c_str name ∉ staged s →
  add_file name (Some node) s
  = {| ret := 0%Z;
       out := [printf ("Archivo " +:+ fmt_s name +:+ " agregado al área de preparación.")];
       st := {| file_list := {| filename := bounded_copy name |} :: file_list s;
                commit_list := commit_list s;
                is_repo_initialized := true |} |}.
Proof.
  intros Hinit Hfresh. apply add_file_replace_None in Hfresh.
  enter add_file Hinit. by rewrite Hfresh.
Qed.

Lemma add_file_again name m s :
  is_repo_initialized s = true → c_str name ∈ staged s →
  ∃ l, add_file_replace (file_list s) name = Some l
       ∧ add_file name m s
         = {| ret := 0%Z;
              out := [printf ("El archivo " +:+ fmt_s name
                              +:+ " ya existe. Reemplazando el archivo.")];
              st := {| file_list := l; commit_list := commit_list s;
                       is_repo_initialized := true |} |}.
Proof.
  intros Hinit Hin.
  destruct (add_file_replace (file_list s) name) as [l|] eqn:Hrep;
    [|by apply add_file_replace_None in Hrep].
  exists l. split; [done|]. enter add_file Hinit. by rewrite Hrep.
Qed.

(** The names staged in a reachable state fit their arrays. *)
Lemma reachable_staged_short s n :
  reachable s → n ∈ staged s → length n ≤ MAX_ARG_LENGTH - 1.
Proof.
  intros Hreach Hn. apply reachable_terminated in Hreach as [Hfiles _].
  apply list_elem_of_fmap in Hn as (f & -> & Hf).
  unfold names_terminated in Hfiles. rewrite Forall_forall in Hfiles.
  apply terminated_strlen, Hfiles, Hf.
Qed.

Lemma reachable_messages_short s c :
  reachable s → c ∈ commit_list s → length (message_of c) ≤ MAX_ARG_LENGTH - 1.
Proof.
  intros Hreach Hc. apply reachable_terminated in Hreach as [_ Hmsgs].
  unfold messages_terminated in Hmsgs. rewrite Forall_forall in Hmsgs.
  apply terminated_strlen, Hmsgs, Hc.
Qed.

Lemma reachable_long_name_not_staged s name :
  reachable s → MAX_ARG_LENGTH ≤ strlen name → c_str name ∉ staged s.
Proof.
  intros Hreach Hlong Hin. apply (reachable_staged_short s _ Hreach) in Hin.
  unfold strlen, MAX_ARG_LENGTH in *. lia.
Qed.

Lemma exec_keeps_initialized c s :
  is_repo_initialized s = true → is_repo_initialized (st (exec c s)) = true.
Proof.
  intros Hinit. destruct c as [|name m|name|msg m| |id|]; simpl.
  - unfold init_repo. by rewrite Hinit.
  - enter add_file Hinit.
    destruct (add_file_replace (file_list s) name); [done|]. by destruct m.
  - enter remove_file Hinit. by destruct (remove_file_unlink (file_list s) name).
  - enter commit Hinit. by destruct m.
  - by rewrite st_log_commits.
  - enter checkout_commit Hinit. by destruct (checkout_find (commit_list s) id).
  - by rewrite st_list_files.
Qed.

Lemma exec_uninitialized c s :
  is_repo_initialized s = false →
  file_list (st (exec c s)) = file_list s
  ∧ commit_list (st (exec c s)) = commit_list s.
Proof.
  intros Hoff. destruct c as [|name m|name|msg m| |id|]; simpl.
  - unfold init_repo. by rewrite Hoff.
  - by enter add_file Hoff.
  - by enter remove_file Hoff.
  - by enter commit Hoff.
  - by rewrite st_log_commits.
  - by enter checkout_commit Hoff.
  - by rewrite st_list_files.
Qed.

Lemma remove_file_unlink_None_result name s :
  is_repo_initialized s = true → c_str name ∉ staged s →
  remove_file name s
  = {| ret := (-1)%Z; out := [printf ("Archivo no encontrado: " +:+ fmt_s name)];
       st := s |}.
Proof.
  intros Hinit Hfresh. apply remove_file_unlink_None in Hfresh.
  enter remove_file Hinit. by rewrite Hfresh.
Qed.

Lemma run_snoc cs c s : run (cs ++ [c]) s = st (exec c (run cs s)).
Proof. unfold run. by rewrite foldl_app. Qed.

End staging.

(** X1. [init_repo] returns 0 in every state, sets the flag and touches neither
    the staging list nor the history; called again it only prints that the
    repository is already initialized and changes nothing. *)
Theorem init_repo_idempotent (s : repo) :
  let s1 := st (init_repo s) in
  ret (init_repo s) = 0%Z
  ∧ is_repo_initialized s1 = true
  ∧ file_list s1 = file_list s
  ∧ commit_list s1 = commit_list s
  ∧ init_repo s1
    = {| ret := 0%Z; out := [printf "El repositorio ya está inicializado."]; st := s1 |}.
Proof.
  unfold init_repo. destruct s as [files history [|]]; simpl; by split_and!.
Qed.

(** X2. Once the repository is initialized it stays initialized: no call, and
    no sequence of calls, clears the flag. *)
Theorem run_keeps_initialized (cs : list call) (s : repo) :
  is_repo_initialized s = true → is_repo_initialized (run cs s) = true.
Proof.
  revert s. induction cs as [|c cs IH]; intros s Hinit; [done|].
  simpl. by apply IH, exec_keeps_initialized.
Qed.

Lemma run_keeps_initialized_witness :
  is_repo_initialized ready = true
  ∧ is_repo_initialized
      (run [Add (lit "a") None; Checkout (lit "none"); Init; Rm (lit "a")] ready) = true.
Proof.
  split; [reflexivity|]. by apply (run_keeps_initialized _ ready).
Defined.

(** X3. Whatever calls were made, as long as [init_repo] has not succeeded
    nothing is staged and nothing is committed. *)
Theorem reachable_uninitialized_empty (s : repo) :
  reachable s → is_repo_initialized s = false →
  file_list s = [] ∧ commit_list s = [].
Proof.
  intros [cs ->]. induction cs as [|c cs IH] using rev_ind; [done|].
  rewrite run_snoc. intros Hoff.
  destruct (is_repo_initialized (run cs initial_repo)) eqn:Hprev.
  - by rewrite exec_keeps_initialized in Hoff.
  - destruct (exec_uninitialized c _ Hprev) as [-> ->]. by apply IH.
Qed.

Lemma reachable_uninitialized_empty_witness :
  let s := run [Add (lit "a") (Some zero_node); Commit (lit "m") (Some zero_block);
                Checkout (lit "m"); Ls] initial_repo in
  (reachable s ∧ is_repo_initialized s = false)
  ∧ file_list s = [] ∧ commit_list s = [].
Proof.
  intros s. assert (reachable s) as Hreach by (by eexists).
  split; [by split|]. by apply (reachable_uninitialized_empty s Hreach).
Defined.

(** X4. The history only grows at its head: after any sequence of calls the
    history of before is still there, unchanged, as the tail of the history. *)
Theorem run_history_suffix (cs : list call) (s : repo) :
  commit_list s `suffix_of` commit_list (run cs s).
Proof.
  revert s. induction cs as [|c cs IH]; intros s; [done|].
  simpl. etrans; [|apply IH].
  destruct (exec_history c s) as [-> | (msg & block & _ & ->)]; [done|].
  by apply suffix_cons_r.
Qed.

(** X5. On an initialized repository [remove_file] of a staged name returns
    0 and unlinks the first node with that name, keeping the nodes before and
    after it in their order; the history is kept.  When no two staged entries
    share a name, the name is not staged afterwards. *)
Theorem remove_file_unlinks_first (s : repo) (name : list ascii) :
  is_repo_initialized s = true → c_str name ∈ staged s →
  let r := remove_file name s in
  ret r = 0%Z
  ∧ out r = [printf ("Archivo " +:+ fmt_s name +:+ " eliminado.")]
  ∧ commit_list (st r) = commit_list s
  ∧ (∃ pre node post,
        file_list s = pre ++ node :: post
        ∧ (c_str name ∉ name_of <$> pre)
        ∧ name_of node = c_str name
        ∧ file_list (st r) = pre ++ post)
  ∧ length (file_list (st r)) + 1 = length (file_list s)
  ∧ (NoDup (staged s) → c_str name ∉ staged (st r)).
Proof.
  intros Hinit Hin r. unfold r.
  destruct (remove_file_unlink (file_list s) name) as [l|] eqn:Hrm;
    [|by apply remove_file_unlink_None in Hrm].
  enter remove_file Hinit. rewrite Hrm. simpl.
  apply remove_file_unlink_Some in Hrm as (pre & node & post & Hl & Hpre & Hnode & ->).
  assert (c_str name ∉ name_of <$> pre) as Hpre'.
  { intros Hin'. apply list_elem_of_fmap in Hin' as (f & Hf & Hfin).
    rewrite Forall_forall in Hpre. by apply (Hpre f Hfin). }
  split_and!; try done.
  - by exists pre, node, post.
  - rewrite Hl, !length_app. simpl. lia.
  - unfold staged. simpl. rewrite Hl, !fmap_app, fmap_cons, Hnode.
    intros Huniq. apply NoDup_app in Huniq as (_ & Hdisj & Hpost).
    apply NoDup_cons in Hpost as [Hnotin _].
    rewrite not_elem_of_app. by split.
Qed.

Lemma remove_file_unlinks_first_witness :
  let s := run [Add (lit "a") (Some zero_node); Add (lit "b") (Some zero_node)] ready in
  (is_repo_initialized s = true ∧ c_str (lit "a") ∈ staged s)
  ∧ ret (remove_file (lit "a") s) = 0%Z
  ∧ staged (st (remove_file (lit "a") s)) = [lit "b"].
Proof.
  intros s.
  assert (c_str (lit "a") ∈ staged s) as Hin by (vm_compute; right; left).
  split; [by split|].
  destruct (remove_file_unlinks_first s (lit "a") eq_refl Hin) as (Hret & _).
  split; [exact Hret | reflexivity].
Defined.

(** X6. On an initialized repository [remove_file] of a name that is not
    staged returns -1, prints that the file was not found and changes
    nothing. *)
Theorem remove_file_absent_unchanged (s : repo) (name : list ascii) :
  is_repo_initialized s = true → c_str name ∉ staged s →
  remove_file name s
  = {| ret := (-1)%Z;
       out := [printf ("Archivo no encontrado: " +:+ fmt_s name)];
       st := s |}.
Proof. apply remove_file_unlink_None_result. Qed.

Lemma remove_file_absent_unchanged_witness :
  (is_repo_initialized a_staged = true ∧ c_str (lit "b") ∉ staged a_staged)
  ∧ st (remove_file (lit "b") a_staged) = a_staged.
Proof.
  assert (c_str (lit "b") ∉ staged a_staged) as Hfresh.
  { vm_compute. intros Hin. apply elem_of_cons in Hin as [Heq|Hin];
      [discriminate | by apply elem_of_nil in Hin]. }
  split; [by split|].
  by rewrite (remove_file_absent_unchanged a_staged (lit "b") eq_refl Hfresh).
Defined.

(** X7. On an initialized repository, staging a name of at most 49
    characters that is not staged and removing it again gives back the state
    of before. *)
Theorem add_then_remove_restores (s : repo) (name : list ascii) (node : FileNode) :
  is_repo_initialized s = true →
  strlen name ≤ MAX_ARG_LENGTH - 1 →
  c_str name ∉ staged s →
  ret (remove_file name (st (add_file name (Some node) s))) = 0%Z
  ∧ st (remove_file name (st (add_file name (Some node) s))) = s.
Proof.
  intros Hinit Hfits Hfresh. rewrite add_file_fresh by done. simpl.
  unfold remove_file, check_repo_initialized. simpl.
  assert (strcmp_eq0 (bounded_copy name) name = true) as ->.
  { apply strcmp_eq0_iff. by apply c_str_bounded_copy_fits. }
  simpl. split; [done|]. destruct s; simpl in *. by subst.
Qed.

Lemma add_then_remove_restores_witness :
  (is_repo_initialized a_staged = true
   ∧ strlen (lit "b") ≤ MAX_ARG_LENGTH - 1
   ∧ c_str (lit "b") ∉ staged a_staged)
  ∧ st (remove_file (lit "b") (st (add_file (lit "b") (Some zero_node) a_staged)))
    = a_staged.
Proof.
  assert (strlen (lit "b") ≤ MAX_ARG_LENGTH - 1) as Hfits by (vm_compute; lia).
  assert (c_str (lit "b") ∉ staged a_staged) as Hfresh.
  { vm_compute. intros Hin. apply elem_of_cons in Hin as [Heq|Hin];
      [discriminate | by apply elem_of_nil in Hin]. }
  split; [by split_and!|].
  by destruct (add_then_remove_restores a_staged (lit "b") zero_node eq_refl Hfits Hfresh).
Defined.

(** X8. On an initialized repository, [add_file] of a name of at most 49
    characters leaves the name staged, and a second [add_file] of the same
    name returns 0, reports the replacement and leaves the listing as the
    first call left it; it does not call [malloc]. *)
Theorem add_file_twice_same_listing
    (s : repo) (name : list ascii) (node : FileNode) (m : option FileNode) :
  is_repo_initialized s = true →
  strlen name ≤ MAX_ARG_LENGTH - 1 →
  let s1 := st (add_file name (Some node) s) in
  c_str name ∈ staged s1
  ∧ ret (add_file name m s1) = 0%Z
  ∧ out (add_file name m s1)
    = [printf ("El archivo " +:+ fmt_s name +:+ " ya existe. Reemplazando el archivo.")]
  ∧ staged (st (add_file name m s1)) = staged s1.
Proof.
  intros Hinit Hfits s1.
  assert (is_repo_initialized s1 = true) as Hinit1
    by apply (exec_keeps_initialized (Add name (Some node)) s Hinit).
  assert (c_str name ∈ staged s1) as Hin.
  { unfold s1. destruct (decide (c_str name ∈ staged s)) as [Hold|Hnew].
    - destruct (add_file_again name (Some node) s Hinit Hold) as (l & Hrep & ->).
      unfold staged. simpl. by rewrite (add_file_replace_staged _ _ name Hfits Hrep).
    - rewrite add_file_fresh by done. unfold staged. simpl.
      unfold name_of at 1. simpl. rewrite c_str_bounded_copy_fits by done. left. }
  destruct (add_file_again name m s1 Hinit1 Hin) as (l & Hrep & ->). simpl.
  split_and!; try done.
  unfold staged. simpl. by rewrite (add_file_replace_staged _ _ name Hfits Hrep).
Qed.

Lemma add_file_twice_same_listing_witness :
  (is_repo_initialized ready = true ∧ strlen (lit "a.txt") ≤ MAX_ARG_LENGTH - 1)
  ∧ staged (st (add_file (lit "a.txt") None
                  (st (add_file (lit "a.txt") (Some zero_node) ready))))
    = [lit "a.txt"].
Proof.
  assert (strlen (lit "a.txt") ≤ MAX_ARG_LENGTH - 1) as Hfits by (vm_compute; lia).
  split; [by split|].
  destruct (add_file_twice_same_listing ready (lit "a.txt") zero_node None eq_refl Hfits)
    as (_ & _ & _ & ->).
  reflexivity.
Defined.

(** X9. In an initialized state the program reached, [add_file] of a name
    of [MAX_ARG_LENGTH] characters or more never finds it staged: every call
    that gets memory links a new node, named by the first 49 characters, at
    the head of the list. *)
Theorem add_file_long_name_always_new (s : repo) (name : list ascii) (node : FileNode) :
  reachable s →
  is_repo_initialized s = true →
  MAX_ARG_LENGTH ≤ strlen name →
  let r := add_file name (Some node) s in
  ret r = 0%Z
  ∧ out r = [printf ("Archivo " +:+ fmt_s name +:+ " agregado al área de preparación.")]
  ∧ staged (st r) = take (MAX_ARG_LENGTH - 1) (c_str name) :: staged s
  ∧ length (file_list (st r)) = S (length (file_list s)).
Proof.
  intros Hreach Hinit Hlong r. unfold r.
  rewrite add_file_fresh by (by try apply reachable_long_name_not_staged).
  simpl. split_and!; try done.
  unfold staged. simpl. f_equal. apply c_str_bounded_copy.
Qed.

Lemma add_file_long_name_always_new_witness :
  let s := st (add_file name50 (Some zero_node) ready) in
  (reachable s ∧ is_repo_initialized s = true ∧ MAX_ARG_LENGTH ≤ strlen name50)
  ∧ length (file_list (st (add_file name50 (Some zero_node) s))) = 2.
Proof.
  intros s.
  assert (reachable s) as Hreach by (by exists [Init; Add name50 (Some zero_node)]).
  assert (MAX_ARG_LENGTH ≤ strlen name50) as Hlong by (vm_compute; lia).
  split; [by split_and!|].
  by destruct (add_file_long_name_always_new s name50 zero_node Hreach eq_refl Hlong)
    as (_ & _ & _ & ->).
Defined.

(** X10. In an initialized state the program reached, a string of
    [MAX_ARG_LENGTH] characters or more names no staged file and no commit:
    [remove_file] and [checkout_commit] return -1 with their not-found line
    and change nothing, also right after [add_file] or [commit] was given
    that very string. *)
Theorem long_name_never_found (s : repo) (name : list ascii) :
  reachable s →
  is_repo_initialized s = true →
  MAX_ARG_LENGTH ≤ strlen name →
  remove_file name s
  = {| ret := (-1)%Z; out := [printf ("Archivo no encontrado: " +:+ fmt_s name)];
       st := s |}
  ∧ checkout_commit name s = checkout_not_found name s.
Proof.
  intros Hreach Hinit Hlong. split.
  - apply remove_file_unlink_None_result; [done|].
    by apply reachable_long_name_not_staged.
  - apply checkout_commit_None; [done|]. apply checkout_find_None, Forall_forall.
    intros c Hc Heq. apply (reachable_messages_short s c Hreach) in Hc.
    rewrite Heq in Hc. unfold strlen, MAX_ARG_LENGTH in *. lia.
Qed.

Lemma long_name_never_found_witness :
  let s := run [Init; Add name50 (Some zero_node); Commit name50 (Some zero_block)]
             initial_repo in
  (reachable s ∧ is_repo_initialized s = true ∧ MAX_ARG_LENGTH ≤ strlen name50)
  ∧ ret (remove_file name50 s) = (-1)%Z
  ∧ ret (checkout_commit name50 s) = (-1)%Z.
Proof.
  intros s.
  assert (reachable s) as Hreach by (by eexists).
  assert (MAX_ARG_LENGTH ≤ strlen name50) as Hlong by (vm_compute; lia).
  split; [by split_and!|].
  by destruct (long_name_never_found s name50 Hreach eq_refl Hlong) as [-> ->].
Defined.

(** ** [commit] followed by [checkout_commit] *)

(** The names the restoring loop stages from a commit made in a clean block:
    the non-empty ones among the first [MAX_FILES] staged names, last
    first. *)
Lemma staged_restore_commit_copy (files : list FileNode) (block : commitGit) :
  clean_block block →
  names_terminated files →
  name_of <$> checkout_restore (commit_copy files 0 (archivos block))
  = reverse (filter (λ n, 0 < length n) (take MAX_FILES (name_of <$> files))).
Proof.
  intros [Hblock Hclean] Hterm.
  rewrite commit_copy_eq by done.
  rewrite checkout_restore_eq, fmap_reverse. f_equal.
  rewrite take_ge by (rewrite length_app, length_fmap, length_take, length_drop;
                      unfold commit_block in Hblock; lia).
  rewrite filter_app.
  assert (filter occupied (drop (length files `min` MAX_FILES) (archivos block)) = [])
    as ->.
  { apply (Forall_drop _ (length files `min` MAX_FILES)) in Hclean.
    induction Hclean as [|x l Hx _ IH]; [done|]. by rewrite filter_cons_False. }
  rewrite app_nil_r, <- fmap_take.
  apply (Forall_take _ MAX_FILES) in Hterm.
  revert Hterm. generalize (take MAX_FILES files). intros l Hterm.
  induction l as [|f l IH]; [done|].
  apply Forall_cons in Hterm as [Hf Hterm].
  rewrite !fmap_cons, !filter_cons.
  assert (occupied (copy_node f) ↔ 0 < length (name_of f)) as Hocc.
  { unfold occupied, strlen. fold (name_of (copy_node f)).
    by rewrite name_of_copy_node_fits. }
  case_decide as H1; case_decide as H2; try tauto.
  rewrite !fmap_cons, IH by done. f_equal.
  rewrite name_of_copy_node_fits by apply terminated_copy_node.
  by apply name_of_copy_node_fits.
Qed.

(** X11. In an initialized state the program reached, [commit] with a message
    of at most 49 characters, in a block that holds no stale name, followed
    by [checkout_commit] of that message returns 0 and restores the commit
    just made, whatever older commits carry the same message: the staging
    list then names the first [MAX_FILES] files that were staged, without
    those of empty name, in reverse order.  With at most [MAX_FILES] staged
    files, none of empty name, it is the listing of before, reversed. *)
Theorem commit_then_checkout_restores (s : repo) (msg : list ascii) (block : commitGit) :
  reachable s →
  is_repo_initialized s = true →
  clean_block block →
  strlen msg ≤ MAX_ARG_LENGTH - 1 →
  let s1 := st (commit msg (Some block) s) in
  let r := checkout_commit msg s1 in
  ret r = 0%Z
  ∧ commit_list (st r) = commit_list s1
  ∧ staged (st r) = reverse (filter (λ n, 0 < length n) (take MAX_FILES (staged s)))
  ∧ (length (file_list s) ≤ MAX_FILES → [] ∉ staged s →
     staged (st r) = reverse (staged s)).
Proof.
  intros Hreach Hinit Hblock Hfits s1 r.
  apply reachable_terminated in Hreach as [Hfiles _].
  assert (staged (st r)
          = reverse (filter (λ n, 0 < length n) (take MAX_FILES (staged s)))) as Hnames.
  { unfold r, s1. enter commit Hinit.
    unfold checkout_commit, check_repo_initialized. simpl.
    assert (strcmp_eq0 (bounded_copy msg) msg = true) as ->.
    { apply strcmp_eq0_iff. by apply c_str_bounded_copy_fits. }
    simpl. unfold staged at 1. simpl. by apply staged_restore_commit_copy. }
  split_and!; try done.
  - unfold r, s1. enter commit Hinit.
    unfold checkout_commit, check_repo_initialized. simpl.
    assert (strcmp_eq0 (bounded_copy msg) msg = true) as ->; [|done].
    apply strcmp_eq0_iff. by apply c_str_bounded_copy_fits.
  - unfold r, s1. enter commit Hinit.
    unfold checkout_commit, check_repo_initialized. simpl.
    assert (strcmp_eq0 (bounded_copy msg) msg = true) as ->; [|done].
    apply strcmp_eq0_iff. by apply c_str_bounded_copy_fits.
  - intros Hfew Hnonempty. rewrite Hnames. f_equal.
    rewrite take_ge by (unfold staged; rewrite length_fmap; lia).
    revert Hnonempty. generalize (staged s). intros l Hl.
    induction l as [|n l IH]; [done|].
    apply not_elem_of_cons in Hl as [Hn Hl].
    rewrite filter_cons_True; [by rewrite IH|].
    destruct n; [done | simpl; lia].
Qed.

Lemma commit_then_checkout_restores_witness :
  let s := run [Init; Add (lit "a") (Some zero_node); Add (lit "b") (Some zero_node);
                Add (lit "c") (Some zero_node)] initial_repo in
  (reachable s ∧ is_repo_initialized s = true ∧ clean_block zero_block
   ∧ strlen (lit "v1") ≤ MAX_ARG_LENGTH - 1
   ∧ length (file_list s) ≤ MAX_FILES ∧ [] ∉ staged s)
  ∧ staged s = [lit "c"; lit "b"; lit "a"]
  ∧ staged (st (checkout_commit (lit "v1") (st (commit (lit "v1") (Some zero_block) s))))
    = [lit "a"; lit "b"; lit "c"].
Proof.
  intros s.
  assert (reachable s) as Hreach by (by eexists).
  assert (clean_block zero_block) as Hclean.
  { split; [reflexivity|]. vm_compute. repeat constructor; lia. }
  assert (strlen (lit "v1") ≤ MAX_ARG_LENGTH - 1) as Hfits by (vm_compute; lia).
  assert (length (file_list s) ≤ MAX_FILES) as Hfew by (vm_compute; lia).
  assert ([] ∉ staged s) as Hnonempty.
  { vm_compute. intros Hin. repeat (apply elem_of_cons in Hin as [Heq|Hin]; [discriminate|]).
    by apply elem_of_nil in Hin. }
  split; [by split_and!|]. split; [reflexivity|].
  destruct (commit_then_checkout_restores s (lit "v1") zero_block Hreach eq_refl Hclean Hfits)
    as (_ & _ & _ & Hall).
  rewrite (Hall Hfew Hnonempty). reflexivity.
Defined.

(** X12. On an initialized repository [commit] writes the slots below the
    number of staged files and never a slot past [MAX_FILES - 1], however
    many files are staged: in an array with room past slot [MAX_FILES - 1]
    those slots, like every other slot it did not reach, keep the bytes they
    came with. *)
Theorem commit_leaves_unreached_slots (s : repo) (msg : list ascii) (block : commitGit) :
  is_repo_initialized s = true →
  MAX_FILES ≤ length (archivos block) →
  let n := length (file_list s) `min` MAX_FILES in
  ∃ c, commit_list (st (commit msg (Some block) s)) = c :: commit_list s
       ∧ length (archivos c) = length (archivos block)
       ∧ take n (archivos c) = copy_node <$> take MAX_FILES (file_list s)
       ∧ drop n (archivos c) = drop n (archivos block)
       ∧ drop MAX_FILES (archivos c) = drop MAX_FILES (archivos block).
Proof.
  intros Hinit Hblock n. enter commit Hinit.
  eexists. split; [done|]. simpl.
  split; [by rewrite length_commit_copy|].
  rewrite commit_copy_from by lia.
  rewrite take_0, Nat.sub_0_r, Nat.add_0_l. simpl. fold n.
  assert (length (copy_node <$> take MAX_FILES (file_list s)) = n) as Hn
    by (rewrite length_fmap, length_take; unfold n; lia).
  assert (drop n ((copy_node <$> take MAX_FILES (file_list s)) ++ drop n (archivos block))
          = drop n (archivos block)) as Hdrop
    by (rewrite drop_app_ge by lia; by rewrite Hn, Nat.sub_diag).
  split_and!.
  - rewrite take_app_le by lia. apply take_ge. lia.
  - exact Hdrop.
  - replace MAX_FILES with (n + (MAX_FILES - n)) at 1 3 by (unfold n; lia).
    by rewrite <- !drop_drop, Hdrop.
Qed.

Lemma commit_leaves_unreached_slots_witness :
  (is_repo_initialized eleven_staged = true ∧ MAX_FILES ≤ length (archivos roomy_block))
  ∧ length (file_list eleven_staged) = 11
  ∧ ∃ c, commit_list (st (commit (lit "m") (Some roomy_block) eleven_staged)) = [c]
         ∧ name_of <$> drop MAX_FILES (archivos c) = [lit "y"; lit "z"].
Proof.
  assert (MAX_FILES ≤ length (archivos roomy_block)) as Hroom by (vm_compute; lia).
  split; [by split|]. split; [reflexivity|].
  destruct (commit_leaves_unreached_slots eleven_staged (lit "m") roomy_block eq_refl Hroom)
    as (c & Hc & _ & _ & _ & Hpast).
  exists c. split; [exact Hc|]. by rewrite Hpast.
Defined.

(** X13. When [malloc] returns [NULL], [add_file] of a name that is not
    staged and [commit] return -1 after [perror] and leave the state as it
    was. *)
Theorem allocation_failure_unchanged (s : repo) (name msg : list ascii) :
  is_repo_initialized s = true →
  c_str name ∉ staged s →
  add_file name None s
  = {| ret := (-1)%Z; out := [perror "Error al asignar memoria"]; st := s |}
  ∧ commit msg None s
    = {| ret := (-1)%Z; out := [perror "Error al asignar memoria para el commit"];
         st := s |}.
Proof.
  intros Hinit Hfresh. apply add_file_replace_None in Hfresh.
  enter add_file Hinit. rewrite Hfresh. by enter commit Hinit.
Qed.

Lemma allocation_failure_unchanged_witness :
  (is_repo_initialized a_staged = true ∧ c_str (lit "b") ∉ staged a_staged)
  ∧ st (add_file (lit "b") None a_staged) = a_staged
  ∧ st (commit (lit "m") None a_staged) = a_staged.
Proof.
  assert (c_str (lit "b") ∉ staged a_staged) as Hfresh.
  { vm_compute. intros Hin. apply elem_of_cons in Hin as [Heq|Hin];
      [discriminate | by apply elem_of_nil in Hin]. }
  split; [by split|].
  by destruct (allocation_failure_unchanged a_staged (lit "b") (lit "m") eq_refl Hfresh)
    as [-> ->].
Defined.

(** X14. On an initialized repository [list_files] and [log_commits] return
    0 and change nothing.  [list_files] prints its heading and then the
    staged names in traversal order, or one line when nothing is staged;
    [log_commits] prints its heading and then the stored messages from the
    head of the history, or a line saying there is none. *)
Theorem listings_read_only (s : repo) :
  is_repo_initialized s = true →
  list_files s
  = {| ret := 0%Z;
       out := if decide (staged s = [])
              then [printf "No hay archivos en el área de preparación."]
              else printf "Archivos en el área de preparación:"
                     :: (printf ∘ string_of_list_ascii <$> staged s);
       st := s |}
  ∧ log_commits s
    = {| ret := 0%Z;
         out := printf "==Historial de Commits=="
                :: (if decide (commit_list s = [])
                    then [printf "No hay commits."]
                    else printf ∘ string_of_list_ascii ∘ message_of <$> commit_list s);
         st := s |}.
Proof.
  intros Hinit. enter list_files Hinit. enter log_commits Hinit.
  unfold staged. split.
  - destruct (file_list s) as [|f files]; [done|].
    rewrite decide_False by done. f_equal.
    by rewrite <- list_fmap_compose.
  - by destruct (commit_list s) as [|c history].
Qed.

Lemma listings_read_only_witness :
  is_repo_initialized two_files_committed = true
  ∧ out (list_files two_files_committed)
    = [printf "Archivos en el área de preparación:"; printf "b"; printf "a"]
  ∧ out (log_commits two_files_committed)
    = [printf "==Historial de Commits=="; printf "c"].
Proof.
  split; [reflexivity|].
  by destruct (listings_read_only two_files_committed eq_refl) as [-> ->].
Defined.

(** ** The tokens of a command *)

Section tokens.
Implicit Types (buf front pre tok back p : list ascii) (delim : list ascii).

Lemma strlen_0_cases p : strlen p = 0 ↔ p = [] ∨ ∃ p', p = NUL :: p'.
Proof.
  unfold strlen. destruct p as [|c p]; simpl; [by split; [left|]|].
  case_decide as Hc; simpl.
  - subst. split; [right; by eexists | done].
  - split; [done|]. intros [?|[p' [= ? _]]]; done.
Qed.

Lemma c_str_app_plain l r : NUL ∉ l → c_str (l ++ r) = l ++ c_str r.
Proof.
  induction l as [|c l IH]; simpl; intros Hl; [done|].
  apply not_elem_of_cons in Hl as [Hc Hl].
  case_decide; [congruence|]. by rewrite IH.
Qed.

Lemma delimiters_no_NUL delim pre : delimiters delim pre → NUL ∉ pre.
Proof.
  intros Hpre Hin. unfold delimiters in Hpre. rewrite Forall_forall in Hpre.
  by destruct (Hpre _ Hin).
Qed.

Lemma plain_no_NUL delim tok : plain delim tok → NUL ∉ tok.
Proof.
  intros Htok Hin. unfold plain in Htok. rewrite Forall_forall in Htok.
  by destruct (Htok _ Hin).
Qed.

Lemma strspn_delimiters delim pre p :
  delimiters delim pre → strspn (pre ++ p) delim = length pre + strspn p delim.
Proof.
  induction 1 as [|c pre Hc _ IH]; [done|]. cbn [app strspn length].
  by rewrite decide_True, IH.
Qed.

Lemma strspn_at_end delim p : strlen p = 0 → strspn p delim = 0.
Proof.
  intros [->|[p' ->]]%strlen_0_cases; [done|]. cbn [strspn].
  rewrite decide_False; [done|]. by intros [? _].
Qed.

Lemma strspn_plain delim tok p :
  tok ≠ [] → plain delim tok → strspn (tok ++ p) delim = 0.
Proof.
  intros Hne Htok. destruct tok as [|c tok]; [done|].
  apply Forall_cons in Htok as [[_ Hc] _]. cbn [app strspn].
  rewrite decide_False; [done|]. by intros [_ ?].
Qed.

Lemma strcspn_plain delim tok p :
  plain delim tok → strcspn (tok ++ p) delim = length tok + strcspn p delim.
Proof.
  induction 1 as [|c tok [Hc Hc'] _ IH]; [done|]. cbn [app strcspn length].
  rewrite decide_False, IH; [done|]. by intros [?|?].
Qed.

Lemma strcspn_at_end delim p : strlen p = 0 → strcspn p delim = 0.
Proof.
  intros [->|[p' ->]]%strlen_0_cases; [done|]. cbn [strcspn].
  rewrite decide_True; [done|]. by left.
Qed.

Lemma strcspn_at_delimiter delim d p : d ∈ delim → strcspn (d :: p) delim = 0.
Proof. intros Hd. cbn [strcspn]. rewrite decide_True; [done|]. by right. Qed.

Lemma strlen_plain delim tok p : tok ≠ [] → plain delim tok → strlen (tok ++ p) ≠ 0.
Proof.
  intros Hne Htok. destruct tok as [|c tok]; [done|].
  apply Forall_cons in Htok as [[Hc _] _]. unfold strlen. cbn [app c_str].
  by rewrite decide_False.
Qed.

(** [strtok] when only delimiters are left: [NULL]. *)
Lemma strtok_none front pre back delim :
  delimiters delim pre → strlen back = 0 →
  strtok (front ++ pre ++ back) (length front) delim
  = (None, front ++ pre ++ back, length front + length pre).
Proof.
  intros Hpre Hback. unfold strtok.
  rewrite drop_app_length, strspn_delimiters, (strspn_at_end _ back), Nat.add_0_r by done.
  rewrite (app_assoc front pre back), <- (length_app front pre), drop_app_length.
  by rewrite decide_True.
Qed.

(** [strtok] on the last word of the string: nothing is written. *)
Lemma strtok_last front pre tok back delim :
  delimiters delim pre → tok ≠ [] → plain delim tok → strlen back = 0 →
  strtok (front ++ pre ++ tok ++ back) (length front) delim
  = (Some (length front + length pre), front ++ pre ++ tok ++ back,
     length front + length pre + length tok).
Proof.
  intros Hpre Hne Htok Hback. unfold strtok.
  rewrite drop_app_length, strspn_delimiters, strspn_plain, Nat.add_0_r by done.
  rewrite (app_assoc front pre), <- (length_app front pre), drop_app_length.
  rewrite decide_False by (by apply (strlen_plain delim)).
  rewrite strcspn_plain, (strcspn_at_end _ back), Nat.add_0_r by done.
  rewrite (app_assoc (front ++ pre) tok back), <- (length_app (front ++ pre) tok).
  rewrite drop_app_length. by rewrite decide_True.
Qed.

(** [strtok] on a word followed by a delimiter: the delimiter is overwritten
    and the byte after it is where the next call starts. *)
Lemma strtok_cut front pre tok d back delim :
  delimiters delim pre → tok ≠ [] → plain delim tok → d ≠ NUL → d ∈ delim →
  strtok (front ++ pre ++ tok ++ d :: back) (length front) delim
  = (Some (length front + length pre), front ++ pre ++ tok ++ NUL :: back,
     S (length front + length pre + length tok)).
Proof.
  intros Hpre Hne Htok Hd Hd'. unfold strtok.
  rewrite drop_app_length, strspn_delimiters, strspn_plain, Nat.add_0_r by done.
  rewrite (app_assoc front pre), <- (length_app front pre), drop_app_length.
  rewrite decide_False by (by apply (strlen_plain delim)).
  rewrite strcspn_plain, strcspn_at_delimiter, Nat.add_0_r by done.
  rewrite (app_assoc (front ++ pre) tok), <- (length_app (front ++ pre) tok).
  rewrite drop_app_length.
  rewrite decide_False by (unfold strlen; cbn [c_str]; by rewrite decide_False).
  rewrite insert_app_r_alt, Nat.sub_diag by lia. simpl.
  by rewrite <- !app_assoc.
Qed.

End tokens.

(** ** One call of [strtok], in general *)

Section strtok_steps.
Implicit Types (buf front rest pre tok back p : list ascii) (delim : list ascii).

Lemma split_delimiters delim p :
  ∃ pre r, p = pre ++ r ∧ delimiters delim pre
           ∧ (strlen r = 0 ∨ ∃ c r', r = c :: r' ∧ c ≠ NUL ∧ c ∉ delim).
Proof.
  induction p as [|c p (pre & r & -> & Hpre & Hr)].
  - exists [], []. split_and!; [done | constructor | by left].
  - destruct (decide (c = NUL)) as [->|Hc].
    { exists [], (NUL :: pre ++ r). split_and!; [done | constructor | by left]. }
    destruct (decide (c ∈ delim)) as [Hin|Hnotin].
    + exists (c :: pre), r. split_and!; [done | by constructor | done].
    + exists [], (c :: pre ++ r). split_and!; [done | constructor |].
      right. by eexists _, _.
Qed.

Lemma split_plain delim p :
  ∃ tok r, p = tok ++ r ∧ plain delim tok
           ∧ (strlen r = 0 ∨ ∃ d r', r = d :: r' ∧ d ≠ NUL ∧ d ∈ delim).
Proof.
  induction p as [|c p (tok & r & -> & Htok & Hr)].
  - exists [], []. split_and!; [done | constructor | by left].
  - destruct (decide (c = NUL)) as [->|Hc].
    { exists [], (NUL :: tok ++ r). split_and!; [done | constructor | by left]. }
    destruct (decide (c ∈ delim)) as [Hin|Hnotin].
    + exists [], (c :: tok ++ r). split_and!; [done | constructor |].
      right. by eexists _, _.
    + exists (c :: tok), r. split_and!; [done | by constructor | done].
Qed.

Lemma c_str_at_end p : strlen p = 0 → c_str p = [].
Proof. unfold strlen. by intros ?%length_zero_iff_nil. Qed.

(** What one call of [strtok] does to an array [front ++ rest] when started
    at [rest]: the array keeps [front'], which is where the next call
    starts; the bytes left for that call are bytes of the string at [rest];
    a token is not empty, holds no delimiter, and its bytes are bytes of the
    string at [rest]. *)
Lemma strtok_step front rest delim :
  ∃ tk front' rest',
    strtok (front ++ rest) (length front) delim = (tk, front' ++ rest', length front')
    ∧ (∀ c, c ∈ c_str rest' → c ∈ c_str rest)
    ∧ match tk with
      | None => True
      | Some f =>
          let arg := c_str (drop f (front' ++ rest')) in
          arg ≠ [] ∧ Forall (λ c, c ∉ delim) arg ∧ (∀ c, c ∈ arg → c ∈ c_str rest)
      end.
Proof.
  destruct (split_delimiters delim rest) as (pre & r & -> & Hpre & Hr).
  pose proof (delimiters_no_NUL _ _ Hpre) as Hpre0.
  destruct Hr as [Hend | (c & r' & -> & Hc & Hc')].
  { exists None, (front ++ pre), r. rewrite strtok_none by done.
    split_and!; [by rewrite length_app, <- app_assoc | | done].
    rewrite (c_str_at_end r) by done. by intros c ?%elem_of_nil. }
  destruct (split_plain delim (c :: r')) as (tok & r & Heq & Htok & Hr).
  assert (tok ≠ []) as Hne.
  { intros ->. simpl in Heq. subst r.
    destruct Hr as [Hend | (d & r'' & [= <- <-] & _ & Hd)]; [|done].
    apply strlen_0_cases in Hend as [?|[? [= ? _]]]; done. }
  rewrite Heq. clear Heq c r' Hc Hc'.
  pose proof (plain_no_NUL _ _ Htok) as Htok0.
  assert (Forall (λ c, c ∉ delim) tok) as Htok'
    by (eapply Forall_impl; [exact Htok | by intros c [_ ?]]).
  destruct Hr as [Hend | (d & r' & -> & Hd & Hd')].
  - exists (Some (length front + length pre)), (front ++ pre ++ tok), r.
    rewrite strtok_last by done.
    split_and!.
    + by rewrite !length_app, <- !app_assoc, Nat.add_assoc.
    + rewrite (c_str_at_end r) by done. by intros c ?%elem_of_nil.
    + cbn zeta. rewrite <- !app_assoc, (app_assoc front pre), <- length_app.
      rewrite drop_app_length, c_str_app_plain, (c_str_at_end r), app_nil_r by done.
      split_and!; [done | done |].
      intros c Hc. rewrite c_str_app_plain, c_str_app_plain by done.
      rewrite !elem_of_app. tauto.
  - exists (Some (length front + length pre)), (front ++ pre ++ tok ++ [NUL]), r'.
    rewrite strtok_cut by done.
    split_and!.
    + rewrite !length_app, <- !app_assoc. simpl. f_equal. lia.
    + intros c Hc. rewrite c_str_app_plain, c_str_app_plain by done.
      cbn [c_str]. rewrite decide_False by done.
      rewrite !elem_of_app, elem_of_cons. tauto.
    + cbn zeta. rewrite <- !app_assoc, (app_assoc front pre), <- length_app.
      rewrite drop_app_length. simpl. rewrite c_str_app_NUL by done.
      split_and!; [done | done |].
      intros c Hc. rewrite c_str_app_plain, c_str_app_plain by done.
      rewrite !elem_of_app. tauto.
Qed.

(** The array after the newline was cut off. *)
Lemma cut_newline command :
  ∃ tail, <[strcspn command [newline] := NUL]> command = line_text command ++ tail
          ∧ strlen tail = 0.
Proof.
  unfold line_text. induction command as [|c command (tail & IH & Htail)].
  - by exists [].
  - cbn [strcspn]. case_decide as Hc.
    + exists (NUL :: command). split; [done|]. apply strlen_0_cases. right. by eexists.
    + exists tail. split; [|done]. simpl. by rewrite IH.
Qed.

Lemma line_text_plain command :
  Forall (λ c, c ≠ NUL ∧ c ≠ newline) (line_text command).
Proof.
  unfold line_text. induction command as [|c command IH]; [constructor|].
  cbn [strcspn]. case_decide as Hc; [constructor|].
  simpl. constructor; [|done].
  split; [tauto|]. intros ->. apply Hc. right. left.
Qed.

Lemma c_str_cut_newline command :
  c_str (<[strcspn command [newline] := NUL]> command) = line_text command.
Proof.
  destruct (cut_newline command) as (tail & -> & Htail).
  rewrite c_str_app_plain, (c_str_at_end tail), app_nil_r; [done..|].
  intros Hin. pose proof (line_text_plain command) as Hplain.
  rewrite Forall_forall in Hplain. by destruct (Hplain _ Hin).
Qed.

End strtok_steps.

(** ** The operations read their arguments as strings *)

Section string_arguments.
Implicit Types (p q : list ascii) (s : repo).

Lemma bounded_copy_c_str p : bounded_copy (c_str p) = bounded_copy p.
Proof. unfold bounded_copy, strncpy. by rewrite c_str_idemp. Qed.

Lemma strcmp_eq0_c_str a p : strcmp_eq0 a (c_str p) = strcmp_eq0 a p.
Proof. unfold strcmp_eq0. by rewrite c_str_idemp. Qed.

Lemma fmt_s_c_str p : fmt_s (c_str p) = fmt_s p.
Proof. unfold fmt_s. by rewrite c_str_idemp. Qed.

Lemma add_file_replace_c_str l p :
  add_file_replace l (c_str p) = add_file_replace l p.
Proof.
  induction l as [|node l IH]; simpl; [done|].
  by rewrite strcmp_eq0_c_str, bounded_copy_c_str, IH.
Qed.

Lemma remove_file_unlink_c_str l p :
  remove_file_unlink l (c_str p) = remove_file_unlink l p.
Proof.
  induction l as [|node l IH]; simpl; [done|].
  by rewrite strcmp_eq0_c_str, IH.
Qed.

Lemma checkout_find_c_str history p :
  checkout_find history (c_str p) = checkout_find history p.
Proof.
  induction history as [|c history IH]; simpl; [done|].
  by rewrite strcmp_eq0_c_str, IH.
Qed.

Lemma add_file_c_str p m s : add_file p m s = add_file (c_str p) m s.
Proof.
  unfold add_file.
  by rewrite add_file_replace_c_str, fmt_s_c_str, bounded_copy_c_str.
Qed.

Lemma remove_file_c_str p s : remove_file p s = remove_file (c_str p) s.
Proof. unfold remove_file. by rewrite remove_file_unlink_c_str, fmt_s_c_str. Qed.

Lemma commit_c_str p m s : commit p m s = commit (c_str p) m s.
Proof. unfold commit. by rewrite fmt_s_c_str, bounded_copy_c_str. Qed.

Lemma checkout_commit_c_str p s : checkout_commit p s = checkout_commit (c_str p) s.
Proof. unfold checkout_commit. by rewrite checkout_find_c_str, fmt_s_c_str. Qed.

End string_arguments.

(** ** A round of the prompt *)

Section rounds.
Implicit Types (command : list ascii) (s : repo).

(** An argument found by [strtok] in the line is a name, or a message. *)
Lemma prompt_name_of_token command arg :
  arg ≠ [] → NUL ∉ arg → Forall (λ c, c ∉ [space]) arg →
  (∀ c, c ∈ arg → c ∈ line_text command) → prompt_name arg.
Proof.
  intros Hne Hnul Hsp Hin. split; [done|]. apply Forall_forall. intros c Hc.
  pose proof (line_text_plain command) as Hline. rewrite Forall_forall in Hline.
  rewrite Forall_forall in Hsp.
  split_and!.
  - by intros ->.
  - intros ->. apply (Hsp _ Hc). left.
  - by destruct (Hline c (Hin c Hc)).
Qed.

Lemma prompt_message_of_token command arg :
  arg ≠ [] → NUL ∉ arg →
  (∀ c, c ∈ arg → c ∈ line_text command) → prompt_message arg.
Proof.
  intros Hne Hnul Hin. split; [done|]. apply Forall_forall. intros c Hc.
  pose proof (line_text_plain command) as Hline. rewrite Forall_forall in Hline.
  split; [by intros -> | by destruct (Hline c (Hin c Hc))].
Qed.

(** Every round the body of the loop can make. *)
Lemma main_body_cases command new_node new_commit s :
  let r := main_body command new_node new_commit s in
  r = Continue [] s
  ∨ r = Continue (out (init_repo s) ++ [printf "Repositorio inicializado correctamente."])
        (st (init_repo s))
  ∨ (∃ name, prompt_name name
       ∧ (r = continue_with (add_file name new_node s)
          ∨ r = continue_with (remove_file name s)
          ∨ r = continue_with (checkout_commit name s)))
  ∨ (∃ msg, prompt_message msg ∧ r = continue_with (commit msg new_commit s))
  ∨ r = continue_with (log_commits s)
  ∨ r = continue_with (list_files s)
  ∨ r = Break [printf "Saliendo de uGit."] s
  ∨ (∃ text, r = Continue [printf text] s).
Proof.
  intros r. unfold r, main_body.
  destruct (strtok_step [] (<[strcspn command [newline] := NUL]> command) [space])
    as (tk & front & rest & Heq & Hrest & Htok).
  simpl in Heq. rewrite Heq. rewrite c_str_cut_newline in Hrest.
  destruct tk as [t|]; [|by left]. clear Htok.
  assert (∀ delim,
    ∃ tk front' rest',
      strtok (front ++ rest) (length front) delim = (tk, front' ++ rest', length front')
      ∧ match tk with
        | None => True
        | Some f =>
            let arg := c_str (drop f (front' ++ rest')) in
            arg ≠ [] ∧ Forall (λ c, c ∉ delim) arg
            ∧ (∀ c, c ∈ arg → c ∈ line_text command)
        end) as Hnext.
  { intros delim.
    destruct (strtok_step front rest delim) as (tk & front' & rest' & Heq' & _ & Htok).
    exists tk, front', rest'. split; [done|].
    destruct tk; [|done]. destruct Htok as (? & ? & Hin). split_and!; [done..|].
    intros c Hc. by apply Hrest, Hin. }
  assert (init_repo_ret : ∀ s', (ret (init_repo s') =? 0)%Z = true)
    by (intros s'; unfold init_repo; by destruct (is_repo_initialized s')).
  destruct (strcmp_eq0 _ (lit "init")); [right; left; by rewrite init_repo_ret|].
  destruct (strcmp_eq0 _ (lit "add")).
  { destruct (Hnext [space]) as (tk & front' & rest' & -> & Harg).
    destruct tk as [f|]; [|do 7 right; by eexists].
    destruct Harg as (Hne & Hsp & Hin). do 2 right; left.
    exists (c_str (drop f (front' ++ rest'))).
    split; [by eapply prompt_name_of_token; [|apply c_str_no_NUL|..]|].
    left. by rewrite add_file_c_str. }
  destruct (strcmp_eq0 _ (lit "rm")).
  { destruct (Hnext [space]) as (tk & front' & rest' & -> & Harg).
    destruct tk as [f|]; [|do 7 right; by eexists].
    destruct Harg as (Hne & Hsp & Hin). do 2 right; left.
    exists (c_str (drop f (front' ++ rest'))).
    split; [by eapply prompt_name_of_token; [|apply c_str_no_NUL|..]|].
    right; left. by rewrite remove_file_c_str. }
  destruct (strcmp_eq0 _ (lit "commit")).
  { destruct (Hnext []) as (tk & front' & rest' & -> & Harg).
    destruct tk as [f|]; [|do 7 right; by eexists].
    destruct Harg as (Hne & Hsp & Hin). do 3 right; left.
    exists (c_str (drop f (front' ++ rest'))).
    split; [by eapply prompt_message_of_token; [|apply c_str_no_NUL|..]|].
    by rewrite commit_c_str. }
  destruct (strcmp_eq0 _ (lit "log")); [by do 4 right; left|].
  destruct (strcmp_eq0 _ (lit "checkout")).
  { destruct (Hnext [space]) as (tk & front' & rest' & -> & Harg).
    destruct tk as [f|]; [|do 7 right; by eexists].
    destruct Harg as (Hne & Hsp & Hin). do 2 right; left.
    exists (c_str (drop f (front' ++ rest'))).
    split; [by eapply prompt_name_of_token; [|apply c_str_no_NUL|..]|].
    right; right. by rewrite checkout_commit_c_str. }
  destruct (strcmp_eq0 _ (lit "ls")); [by do 5 right; left|].
  destruct (strcmp_eq0 _ (lit "exit")); [by do 6 right; left|].
  do 7 right. by eexists.
Qed.

End rounds.

(** X15. Whatever the line, a round of the prompt is one of these: nothing
    printed and the state kept; [init_repo] followed by the success line; one
    call of [add_file], [remove_file] or [checkout_commit] on a name that is
    not empty and holds no space and no newline; one call of [commit] on a
    message that is not empty and holds no newline; [log_commits];
    [list_files]; the end of the loop after the farewell line; or, with the
    state kept, one of the three missing-argument errors or the line that
    tells the command was not recognized.  Each call prints what it prints
    and leaves the state it leaves. *)
Theorem prompt_round_is_one_call
    (command : list ascii) (new_node : option FileNode)
    (new_commit : option commitGit) (s : repo) :
  let r := main_body command new_node new_commit s in
  r = Continue [] s
  ∨ r = Continue (out (init_repo s) ++ [printf "Repositorio inicializado correctamente."])
        (st (init_repo s))
  ∨ (∃ name, prompt_name name
       ∧ (r = continue_with (add_file name new_node s)
          ∨ r = continue_with (remove_file name s)
          ∨ r = continue_with (checkout_commit name s)))
  ∨ (∃ msg, prompt_message msg ∧ r = continue_with (commit msg new_commit s))
  ∨ r = continue_with (log_commits s)
  ∨ r = continue_with (list_files s)
  ∨ r = Break [printf "Saliendo de uGit."] s
  ∨ r = Continue [printf "Error: nombre del archivo no proporcionado."] s
  ∨ r = Continue [printf "Error: mensaje de commit no proporcionado."] s
  ∨ r = Continue [printf "Error: ID del commit no proporcionado."] s
  ∨ (∃ shown, r = Continue [printf ("Comando no reconocido: " +:+ shown)] s).
Proof.
  intros r. unfold r, main_body.
  destruct (strtok_step [] (<[strcspn command [newline] := NUL]> command) [space])
    as (tk & front & rest & Heq & Hrest & Htok).
  simpl in Heq. rewrite Heq. rewrite c_str_cut_newline in Hrest.
  destruct tk as [t|]; [|by left]. clear Htok.
  assert (∀ delim,
    ∃ tk front' rest',
      strtok (front ++ rest) (length front) delim = (tk, front' ++ rest', length front')
      ∧ match tk with
        | None => True
        | Some f =>
            let arg := c_str (drop f (front' ++ rest')) in
            arg ≠ [] ∧ Forall (λ c, c ∉ delim) arg
            ∧ (∀ c, c ∈ arg → c ∈ line_text command)
        end) as Hnext.
  { intros delim.
    destruct (strtok_step front rest delim) as (tk & front' & rest' & Heq' & _ & Htok).
    exists tk, front', rest'. split; [done|].
    destruct tk; [|done]. destruct Htok as (? & ? & Hin). split_and!; [done..|].
    intros c Hc. by apply Hrest, Hin. }
  assert (init_repo_ret : ∀ s', (ret (init_repo s') =? 0)%Z = true)
    by (intros s'; unfold init_repo; by destruct (is_repo_initialized s')).
  destruct (strcmp_eq0 _ (lit "init")); [right; left; by rewrite init_repo_ret|].
  destruct (strcmp_eq0 _ (lit "add")).
  { destruct (Hnext [space]) as (tk & front' & rest' & -> & Harg).
    destruct tk as [f|]; [|by do 7 right; left].
    destruct Harg as (Hne & Hsp & Hin). do 2 right; left.
    exists (c_str (drop f (front' ++ rest'))).
    split; [by eapply prompt_name_of_token; [|apply c_str_no_NUL|..]|].
    left. by rewrite add_file_c_str. }
  destruct (strcmp_eq0 _ (lit "rm")).
  { destruct (Hnext [space]) as (tk & front' & rest' & -> & Harg).
    destruct tk as [f|]; [|by do 7 right; left].
    destruct Harg as (Hne & Hsp & Hin). do 2 right; left.
    exists (c_str (drop f (front' ++ rest'))).
    split; [by eapply prompt_name_of_token; [|apply c_str_no_NUL|..]|].
    right; left. by rewrite remove_file_c_str. }
  destruct (strcmp_eq0 _ (lit "commit")).
  { destruct (Hnext []) as (tk & front' & rest' & -> & Harg).
    destruct tk as [f|]; [|by do 8 right; left].
    destruct Harg as (Hne & Hsp & Hin). do 3 right; left.
    exists (c_str (drop f (front' ++ rest'))).
    split; [by eapply prompt_message_of_token; [|apply c_str_no_NUL|..]|].
    by rewrite commit_c_str. }
  destruct (strcmp_eq0 _ (lit "log")); [by do 4 right; left|].
  destruct (strcmp_eq0 _ (lit "checkout")).
  { destruct (Hnext [space]) as (tk & front' & rest' & -> & Harg).
    destruct tk as [f|]; [|by do 9 right; left].
    destruct Harg as (Hne & Hsp & Hin). do 2 right; left.
    exists (c_str (drop f (front' ++ rest'))).
    split; [by eapply prompt_name_of_token; [|apply c_str_no_NUL|..]|].
    right; right. by rewrite checkout_commit_c_str. }
  destruct (strcmp_eq0 _ (lit "ls")); [by do 5 right; left|].
  destruct (strcmp_eq0 _ (lit "exit")); [by do 6 right; left|].
  do 10 right. by eexists.
Qed.

(** ** Command lines *)

Section command_lines.
Implicit Types (command pre w back name : list ascii) (s : repo).

Lemma delimiters_replicate i : delimiters [space] (replicate i space).
Proof. apply Forall_replicate. split; [done | left]. Qed.

(** The parts of a line hold no terminator and no newline. *)
Lemma line_text_part command l1 l2 l3 :
  line_text command = l1 ++ l2 ++ l3 → Forall (λ c, c ≠ NUL ∧ c ≠ newline) l2.
Proof.
  intros Heq. pose proof (line_text_plain command) as Hline. rewrite Heq in Hline.
  by apply Forall_app in Hline as [_ [? _]%Forall_app].
Qed.

Lemma plain_word w :
  Forall (λ c, c ≠ NUL ∧ c ≠ newline) w → space ∉ w → plain [space] w.
Proof.
  intros Hw Hsp. apply Forall_forall. intros c Hc.
  rewrite Forall_forall in Hw. destruct (Hw c Hc) as [? _]. split; [done|].
  intros ->%list_elem_of_singleton. done.
Qed.

Lemma no_NUL_part l : Forall (λ c, c ≠ NUL ∧ c ≠ newline) l → NUL ∉ l.
Proof. intros Hl Hin. rewrite Forall_forall in Hl. by destruct (Hl _ Hin). Qed.

(** The body of the loop once the first word of the line is known. *)
Lemma main_body_word command new_node new_commit s t buf saved w :
  strtok (<[strcspn command [newline] := NUL]> command) 0 [space] = (Some t, buf, saved) →
  c_str (drop t buf) = w →
  main_body command new_node new_commit s
  = if bool_decide (w = lit "init") then
      Continue (out (init_repo s) ++ [printf "Repositorio inicializado correctamente."])
        (st (init_repo s))
    else if bool_decide (w = lit "add") then
      match strtok buf saved [space] with
      | (Some f, b, _) => continue_with (add_file (drop f b) new_node s)
      | (None, _, _) => Continue [printf "Error: nombre del archivo no proporcionado."] s
      end
    else if bool_decide (w = lit "rm") then
      match strtok buf saved [space] with
      | (Some f, b, _) => continue_with (remove_file (drop f b) s)
      | (None, _, _) => Continue [printf "Error: nombre del archivo no proporcionado."] s
      end
    else if bool_decide (w = lit "commit") then
      match strtok buf saved [] with
      | (Some f, b, _) => continue_with (commit (drop f b) new_commit s)
      | (None, _, _) => Continue [printf "Error: mensaje de commit no proporcionado."] s
      end
    else if bool_decide (w = lit "log") then continue_with (log_commits s)
    else if bool_decide (w = lit "checkout") then
      match strtok buf saved [space] with
      | (Some f, b, _) => continue_with (checkout_commit (drop f b) s)
      | (None, _, _) => Continue [printf "Error: ID del commit no proporcionado."] s
      end
    else if bool_decide (w = lit "ls") then continue_with (list_files s)
    else if bool_decide (w = lit "exit") then Break [printf "Saliendo de uGit."] s
    else Continue [printf ("Comando no reconocido: " +:+ fmt_s buf)] s.
Proof.
  intros Htok Hw. unfold main_body, strcmp_eq0. rewrite Htok. cbn beta iota zeta.
  rewrite Hw.
  assert (∀ s', (ret (init_repo s') =? 0)%Z = true) as ->
    by (intros s'; unfold init_repo; by destruct (is_repo_initialized s')).
  change (c_str (lit "init")) with (lit "init").
  change (c_str (lit "add")) with (lit "add").
  change (c_str (lit "rm")) with (lit "rm").
  change (c_str (lit "commit")) with (lit "commit").
  change (c_str (lit "log")) with (lit "log").
  change (c_str (lit "checkout")) with (lit "checkout").
  change (c_str (lit "ls")) with (lit "ls").
  change (c_str (lit "exit")) with (lit "exit").
  repeat case_bool_decide; try done;
    by destruct (strtok buf saved _) as [[[f|] b] sv].
Qed.

(** The first call of [strtok] on a line that starts, after spaces, with the
    word [w]: the token is [w], the array reads as the spaces and [w], and
    the next call starts on what follows the space after [w]. *)
Lemma first_word command i w back :
  line_text command = replicate i space ++ w ++ back →
  w ≠ [] → space ∉ w → (back = [] ∨ ∃ back', back = space :: back') →
  ∃ front tail,
    strtok (<[strcspn command [newline] := NUL]> command) 0 [space]
    = (Some i, front ++ drop 1 back ++ tail, length front)
    ∧ c_str (drop i (front ++ drop 1 back ++ tail)) = w
    ∧ c_str (front ++ drop 1 back ++ tail) = replicate i space ++ w
    ∧ strlen tail = 0.
Proof.
  intros Hline Hne Hsp Hback.
  pose proof (line_text_part command _ _ _ Hline) as Hw.
  pose proof (plain_word w Hw Hsp) as Hplain.
  pose proof (delimiters_replicate i) as Hpre.
  pose proof (delimiters_no_NUL _ _ Hpre) as Hpre0.
  pose proof (no_NUL_part _ Hw) as Hw0.
  destruct (cut_newline command) as (tail & -> & Htail). rewrite Hline.
  destruct Hback as [-> | [back' ->]].
  - exists (replicate i space ++ w), tail. simpl. rewrite !app_nil_r.
    pose proof (strtok_last [] (replicate i space) w tail [space] Hpre Hne Hplain Htail)
      as Htok.
    simpl in Htok. rewrite length_replicate in Htok.
    rewrite <- !app_assoc, Htok, length_app, length_replicate.
    split_and!; try done.
    + rewrite <- (length_replicate i space) at 1. rewrite drop_app_length.
      by rewrite c_str_app_plain, (c_str_at_end tail), app_nil_r.
    + rewrite c_str_app_plain, c_str_app_plain, (c_str_at_end tail), app_nil_r; done.
  - exists (replicate i space ++ w ++ [NUL]), tail. simpl. rewrite drop_0.
    pose proof (strtok_cut [] (replicate i space) w space (back' ++ tail) [space]
                  Hpre Hne Hplain) as Htok.
    simpl in Htok. rewrite length_replicate in Htok.
    rewrite <- !app_assoc. simpl. rewrite Htok by (done || left).
    rewrite !length_app, length_replicate. simpl.
    split_and!; try done.
    + f_equal. f_equal. lia.
    + rewrite <- (length_replicate i space) at 1. rewrite drop_app_length.
      by rewrite c_str_app_NUL.
    + by rewrite c_str_app_plain, c_str_app_NUL.
Qed.

(** The second call of [strtok] on spaces, a word and what follows it. *)
Lemma argument_word front j name back tail :
  name ≠ [] → plain [space] name → (back = [] ∨ ∃ back', back = space :: back') →
  strlen tail = 0 →
  ∃ buf saved,
    strtok (front ++ (replicate j space ++ name ++ back) ++ tail) (length front) [space]
    = (Some (length front + j), buf, saved)
    ∧ c_str (drop (length front + j) buf) = name.
Proof.
  intros Hne Hplain Hback Htail.
  pose proof (delimiters_replicate j) as Hpre.
  pose proof (plain_no_NUL _ _ Hplain) as Hname0.
  rewrite <- !app_assoc.
  destruct Hback as [-> | [back' ->]]; simpl.
  - rewrite strtok_last, length_replicate by done.
    do 2 eexists. split; [done|].
    rewrite <- (length_replicate j space) at 1.
    rewrite (app_assoc front), <- length_app, drop_app_length.
    by rewrite c_str_app_plain, (c_str_at_end tail), app_nil_r.
  - rewrite strtok_cut, length_replicate by (done || left).
    do 2 eexists. split; [done|].
    rewrite <- (length_replicate j space) at 1.
    rewrite (app_assoc front), <- length_app, drop_app_length.
    by rewrite c_str_app_NUL.
Qed.

End command_lines.

Section keywords.
Implicit Types (command kw name back : list ascii) (s : repo).

(** A line made of a keyword, spaces and a word: what the two calls of
    [strtok] find. *)
Lemma keyword_and_word command i j kw name back :
  line_text command = replicate i space ++ kw ++ replicate (S j) space ++ name ++ back →
  kw ≠ [] → space ∉ kw → name ≠ [] → space ∉ name →
  (back = [] ∨ ∃ back', back = space :: back') →
  ∃ t buf saved f b sv,
    strtok (<[strcspn command [newline] := NUL]> command) 0 [space] = (Some t, buf, saved)
    ∧ c_str (drop t buf) = kw
    ∧ strtok buf saved [space] = (Some f, b, sv)
    ∧ c_str (drop f b) = name.
Proof.
  intros Hline Hkw Hkw' Hname Hname' Hback.
  assert (plain [space] name) as Hplain.
  { apply plain_word; [|done].
    apply (line_text_part command (replicate i space ++ kw ++ replicate (S j) space)
             name back).
    by rewrite Hline, <- !app_assoc. }
  destruct (first_word command i kw _ Hline Hkw Hkw') as (front & tail & Htok & Hw & _ & Htail);
    [right; by eexists|].
  simpl in Htok, Hw. rewrite drop_0 in Htok, Hw.
  destruct (argument_word front j name back tail Hname Hplain Hback Htail)
    as (b & sv & Harg & Hc).
  by eexists _, _, _, _, _, _.
Qed.

End keywords.

(** X16. A line whose first word is [init], [log], [ls] or [exit] runs that
    command whatever follows the word on the line.  After [init] the prompt
    reports success in every state, also when [init_repo] has just printed
    that the repository was already initialized. *)
Theorem prompt_keyword_ignores_rest
    (command back : list ascii) (i : nat)
    (new_node : option FileNode) (new_commit : option commitGit) (s : repo) :
  (back = [] ∨ ∃ back', back = space :: back') →
  (line_text command = replicate i space ++ lit "init" ++ back →
   main_body command new_node new_commit s
   = Continue (out (init_repo s) ++ [printf "Repositorio inicializado correctamente."])
       (st (init_repo s)))
  ∧ (line_text command = replicate i space ++ lit "log" ++ back →
     main_body command new_node new_commit s = continue_with (log_commits s))
  ∧ (line_text command = replicate i space ++ lit "ls" ++ back →
     main_body command new_node new_commit s = continue_with (list_files s))
  ∧ (line_text command = replicate i space ++ lit "exit" ++ back →
     main_body command new_node new_commit s = Break [printf "Saliendo de uGit."] s).
Proof.
  intros Hback. split_and!; intros Hline.
  - destruct (first_word command i (lit "init") back Hline)
      as (front & tail & Htok & Hw & _); [done | not_in_word | done |].
    rewrite (main_body_word _ _ _ _ _ _ _ _ Htok Hw). by choose_word.
  - destruct (first_word command i (lit "log") back Hline)
      as (front & tail & Htok & Hw & _); [done | not_in_word | done |].
    rewrite (main_body_word _ _ _ _ _ _ _ _ Htok Hw). by choose_word.
  - destruct (first_word command i (lit "ls") back Hline)
      as (front & tail & Htok & Hw & _); [done | not_in_word | done |].
    rewrite (main_body_word _ _ _ _ _ _ _ _ Htok Hw). by choose_word.
  - destruct (first_word command i (lit "exit") back Hline)
      as (front & tail & Htok & Hw & _); [done | not_in_word | done |].
    rewrite (main_body_word _ _ _ _ _ _ _ _ Htok Hw). by choose_word.
Qed.

Lemma prompt_keyword_ignores_rest_witness :
  round_out (main_body (lit " init now" ++ [newline]) None None ready)
  = [printf "El repositorio ya está inicializado.";
     printf "Repositorio inicializado correctamente."]
  ∧ main_body (lit "exit later" ++ [newline]) None None ready
    = Break [printf "Saliendo de uGit."] ready.
Proof.
  destruct (prompt_keyword_ignores_rest (lit " init now" ++ [newline]) (lit " now") 1
              None None ready) as (Hinit & _); [right; by eexists|].
  destruct (prompt_keyword_ignores_rest (lit "exit later" ++ [newline]) (lit " later") 0
              None None ready) as (_ & _ & _ & Hexit); [right; by eexists|].
  rewrite Hinit, Hexit by reflexivity. by split.
Defined.

(** X17. A line made of [add], [rm] or [checkout], one or more spaces and a
    word passes that word, whatever follows it on the line, to [add_file],
    [remove_file] or [checkout_commit], with any number of spaces in
    front. *)
Theorem prompt_passes_next_word
    (command name back : list ascii) (i j : nat)
    (new_node : option FileNode) (new_commit : option commitGit) (s : repo) :
  name ≠ [] → space ∉ name →
  (back = [] ∨ ∃ back', back = space :: back') →
  (line_text command
   = replicate i space ++ lit "add" ++ replicate (S j) space ++ name ++ back →
   main_body command new_node new_commit s = continue_with (add_file name new_node s))
  ∧ (line_text command
     = replicate i space ++ lit "rm" ++ replicate (S j) space ++ name ++ back →
     main_body command new_node new_commit s = continue_with (remove_file name s))
  ∧ (line_text command
     = replicate i space ++ lit "checkout" ++ replicate (S j) space ++ name ++ back →
     main_body command new_node new_commit s = continue_with (checkout_commit name s)).
Proof.
  intros Hname Hname' Hback. split_and!; intros Hline.
  - destruct (keyword_and_word command i j (lit "add") name back Hline)
      as (t & buf & saved & f & b & sv & Htok & Hw & Harg & Hc);
      [done | not_in_word | done..|].
    rewrite (main_body_word _ _ _ _ _ _ _ _ Htok Hw). choose_word.
    by rewrite Harg, add_file_c_str, Hc.
  - destruct (keyword_and_word command i j (lit "rm") name back Hline)
      as (t & buf & saved & f & b & sv & Htok & Hw & Harg & Hc);
      [done | not_in_word | done..|].
    rewrite (main_body_word _ _ _ _ _ _ _ _ Htok Hw). choose_word.
    by rewrite Harg, remove_file_c_str, Hc.
  - destruct (keyword_and_word command i j (lit "checkout") name back Hline)
      as (t & buf & saved & f & b & sv & Htok & Hw & Harg & Hc);
      [done | not_in_word | done..|].
    rewrite (main_body_word _ _ _ _ _ _ _ _ Htok Hw). choose_word.
    by rewrite Harg, checkout_commit_c_str, Hc.
Qed.

Lemma prompt_passes_next_word_witness :
  (lit "foo" ≠ [] ∧ space ∉ lit "foo")
  ∧ staged (round_st (main_body (lit "  add   foo bar" ++ [newline])
                        (Some zero_node) None ready))
    = [lit "foo"].
Proof.
  assert (space ∉ lit "foo") as Hsp by not_in_word.
  split; [by split|].
  destruct (prompt_passes_next_word (lit "  add   foo bar" ++ [newline]) (lit "foo")
              (lit " bar") 2 2 (Some zero_node) None ready) as (Hadd & _);
    [done | done | right; by eexists |].
  by rewrite Hadd.
Defined.

(** X18. A line made of [commit], one space and a text passes the whole
    text, with its spaces, the leading ones included, to [commit]; with
    nothing after [commit], or only the space, the prompt reports the missing
    message and the state is kept. *)
Theorem prompt_commit_takes_rest_of_line
    (command msg : list ascii) (i : nat)
    (new_node : option FileNode) (new_commit : option commitGit) (s : repo) :
  (msg ≠ [] →
   line_text command = replicate i space ++ lit "commit" ++ space :: msg →
   main_body command new_node new_commit s = continue_with (commit msg new_commit s))
  ∧ (line_text command = replicate i space ++ lit "commit"
     ∨ line_text command = replicate i space ++ lit "commit" ++ [space] →
     main_body command new_node new_commit s
     = Continue [printf "Error: mensaje de commit no proporcionado."] s).
Proof.
  split.
  - intros Hmsg Hline.
    assert (plain [] msg) as Hplain.
    { pose proof (line_text_part command (replicate i space ++ lit "commit" ++ [space])
                    msg []) as Hpart.
      rewrite app_nil_r, <- !app_assoc in Hpart. specialize (Hpart Hline).
      eapply Forall_impl; [exact Hpart|]. intros c [? _]. split; [done|].
      by intros ?%elem_of_nil. }
    destruct (first_word command i (lit "commit") (space :: msg) Hline)
      as (front & tail & Htok & Hw & _ & Htail);
      [done | not_in_word | right; by eexists |].
    simpl in Htok, Hw. rewrite drop_0 in Htok, Hw.
    rewrite (main_body_word _ _ _ _ _ _ _ _ Htok Hw). choose_word.
    pose proof (strtok_last front [] msg tail [] ltac:(constructor) Hmsg Hplain Htail)
      as Harg.
    simpl in Harg. rewrite Harg, commit_c_str. rewrite Nat.add_0_r, drop_app_length.
    rewrite c_str_app_plain, (c_str_at_end tail), app_nil_r;
      [done | done | by eapply plain_no_NUL].
  - intros Hline.
    assert (∃ back, line_text command = replicate i space ++ lit "commit" ++ back
                    ∧ (back = [] ∨ back = [space])) as (back & Hline' & Hback).
    { destruct Hline as [Hline|Hline]; [exists [] | exists [space]].
      - by rewrite app_nil_r; split; [|left].
      - by split; [|right]. }
    destruct (first_word command i (lit "commit") back Hline')
      as (front & tail & Htok & Hw & _ & Htail);
      [done | not_in_word | destruct Hback as [->| ->]; [by left | right; by eexists] |].
    rewrite (main_body_word _ _ _ _ _ _ _ _ Htok Hw). choose_word.
    assert (drop 1 back = []) as -> by (by destruct Hback as [->| ->]).
    pose proof (strtok_none front [] tail [] ltac:(constructor) Htail) as Harg.
    simpl in *. by rewrite Harg.
Qed.

Lemma prompt_commit_takes_rest_of_line_witness :
  lit " two words" ≠ []
  ∧ message_of <$> commit_list (round_st (main_body (lit "commit  two words" ++ [newline])
                                            None (Some zero_block) ready))
    = [lit " two words"]
  ∧ main_body (lit "commit " ++ [newline]) None (Some zero_block) ready
    = Continue [printf "Error: mensaje de commit no proporcionado."] ready.
Proof.
  destruct (prompt_commit_takes_rest_of_line (lit "commit  two words" ++ [newline])
              (lit " two words") 0 None (Some zero_block) ready) as (Hcommit & _).
  destruct (prompt_commit_takes_rest_of_line (lit "commit " ++ [newline])
              [] 0 None (Some zero_block) ready) as (_ & Hnone).
  rewrite Hcommit, Hnone by (done || by right). by split_and!.
Defined.

(** X19. A commit whose stored message holds a space cannot be restored from
    the prompt: on an initialized repository where every commit has such a
    message, a line whose first word is [checkout] leaves the state as it
    was, reporting either the missing identifier or that the word after
    [checkout] names no commit. *)
Theorem prompt_checkout_never_finds_spaced_message
    (command back : list ascii) (i : nat)
    (new_node : option FileNode) (new_commit : option commitGit) (s : repo) :
  is_repo_initialized s = true →
  Forall (λ c, space ∈ message_of c) (commit_list s) →
  (back = [] ∨ ∃ back', back = space :: back') →
  line_text command = replicate i space ++ lit "checkout" ++ back →
  let r := main_body command new_node new_commit s in
  round_st r = s
  ∧ (round_out r = [printf "Error: ID del commit no proporcionado."]
     ∨ ∃ id, prompt_name id ∧ round_out r = out (checkout_not_found id s)).
Proof.
  intros Hinit Hspaced Hback Hline r. unfold r.
  destruct (first_word command i (lit "checkout") back Hline)
    as (front & tail & Htok & Hw & _ & Htail); [done | not_in_word | done |].
  rewrite (main_body_word _ _ _ _ _ _ _ _ Htok Hw). choose_word.
  destruct (strtok_step front (drop 1 back ++ tail) [space])
    as (tk & front' & rest' & -> & _ & Harg).
  destruct tk as [f|]; [|split; [done | by left]].
  destruct Harg as (Hne & Hsp & Hin).
  assert (∀ c, c ∈ drop 1 back → c ∈ back) as Hsub
    by (intros c Hc; destruct back; [done | by right]).
  assert (NUL ∉ back) as Hback0.
  { pose proof (line_text_plain command) as Hall. rewrite Hline in Hall.
    apply Forall_app in Hall as [_ [_ Hb]%Forall_app]. by apply no_NUL_part. }
  assert (prompt_name (c_str (drop f (front' ++ rest')))) as Hname.
  { apply (prompt_name_of_token command); [done | apply c_str_no_NUL | done |].
    intros c Hc. apply Hin in Hc.
    rewrite c_str_app_plain, (c_str_at_end tail), app_nil_r in Hc;
      [| done | by intros ?%Hsub].
    rewrite Hline, !elem_of_app. right; right. by apply Hsub. }
  rewrite checkout_commit_c_str, (checkout_commit_None s); [| done |].
  - split; [done|]. right. by eexists.
  - apply checkout_find_None, Forall_forall. intros c Hc Heq.
    rewrite Forall_forall in Hspaced. pose proof (Hspaced c Hc) as Hspace.
    rewrite Heq, c_str_idemp in Hspace.
    destruct Hname as [_ Hname]. rewrite Forall_forall in Hname.
    by destruct (Hname _ Hspace) as (_ & ? & _).
Qed.

Lemma prompt_checkout_never_finds_spaced_message_witness :
  let s := round_st (main_body (lit "commit first version" ++ [newline])
                       None (Some zero_block) ready) in
  (is_repo_initialized s = true ∧ Forall (λ c, space ∈ message_of c) (commit_list s))
  ∧ round_st (main_body (lit "checkout first version" ++ [newline]) None None s) = s.
Proof.
  intros s.
  assert (Forall (λ c, space ∈ message_of c) (commit_list s)) as Hspaced.
  { vm_compute. repeat constructor. }
  split; [by split|].
  by destruct (prompt_checkout_never_finds_spaced_message
                 (lit "checkout first version" ++ [newline]) (lit " first version") 0
                 None None s eq_refl Hspaced ltac:(right; by eexists) eq_refl).
Defined.

(** X20. A line of spaces only, or an empty one, prints nothing and changes
    nothing.  A line whose first word is none of the eight commands changes
    nothing and prints the line up to the end of that word, leading spaces
    included, as the command that was not recognized. *)
Theorem prompt_blank_and_unknown
    (command w back : list ascii) (i : nat)
    (new_node : option FileNode) (new_commit : option commitGit) (s : repo) :
  (line_text command = replicate i space →
   main_body command new_node new_commit s = Continue [] s)
  ∧ (w ≠ [] → space ∉ w →
     w ∉ lit <$> ["init"; "add"; "rm"; "commit"; "log"; "checkout"; "ls"; "exit"]%string →
     (back = [] ∨ ∃ back', back = space :: back') →
     line_text command = replicate i space ++ w ++ back →
     main_body command new_node new_commit s
     = Continue [printf ("Comando no reconocido: "
                         +:+ string_of_list_ascii (replicate i space ++ w))] s).
Proof.
  split.
  - intros Hline. unfold main_body.
    destruct (cut_newline command) as (tail & -> & Htail). rewrite Hline.
    pose proof (strtok_none [] (replicate i space) tail [space]
                  (delimiters_replicate i) Htail) as Htok.
    simpl in Htok. by rewrite Htok.
  - intros Hne Hsp Hw Hback Hline.
    destruct (first_word command i w back Hline Hne Hsp Hback)
      as (front & tail & Htok & Hc & Hshown & _).
    rewrite (main_body_word _ _ _ _ _ _ _ _ Htok Hc).
    repeat (rewrite bool_decide_eq_false_2;
            [|intros ->; apply Hw; vm_compute; repeat constructor]).
    unfold fmt_s. by rewrite Hshown.
Qed.

Lemma prompt_blank_and_unknown_witness :
  main_body (lit "   " ++ [newline]) None None ready = Continue [] ready
  ∧ main_body (lit "  status -v" ++ [newline]) None None ready
    = Continue [printf "Comando no reconocido:   status"] ready.
Proof.
  destruct (prompt_blank_and_unknown (lit "   " ++ [newline]) [] [] 3 None None ready)
    as (Hblank & _).
  destruct (prompt_blank_and_unknown (lit "  status -v" ++ [newline]) (lit "status")
              (lit " -v") 2 None None ready) as (_ & Hunknown).
  rewrite Hblank, Hunknown; [by split | done | not_in_word | | right; by eexists | done | done].
  vm_compute. intros Hin.
  repeat (apply elem_of_cons in Hin as [?|Hin]; [discriminate|]).
  by apply elem_of_nil in Hin.
Defined.

(** ** The loop of [main] *)

Section loop.
Implicit Types (stdin l rest : list ascii) (heap : allocator) (s : repo).

Lemma read_line_short k l rest :
  newline ∉ l → length l < k →
  read_line k (l ++ newline :: rest) = (l ++ [newline], rest).
Proof.
  revert k. induction l as [|c l IH]; intros k Hl Hk.
  - destruct k; [simpl in Hk; lia | done].
  - destruct k; [simpl in Hk; lia|]. apply not_elem_of_cons in Hl as [Hc Hl].
    cbn [app read_line]. rewrite decide_False by done.
    rewrite IH by (done || simpl in Hk; lia). done.
Qed.

Lemma read_line_full k l rest :
  newline ∉ l → length l = k → read_line k (l ++ rest) = (l, rest).
Proof.
  revert k. induction l as [|c l IH]; intros k Hl Hk.
  - simpl in Hk. subst k. by destruct rest.
  - destruct k; [done|]. apply not_elem_of_cons in Hl as [Hc Hl].
    cbn [app read_line]. rewrite decide_False by done.
    rewrite IH by (done || simpl in Hk; lia). done.
Qed.

Lemma fgets_line l rest :
  newline ∉ l → length l ≤ MAX_COMMAND_LENGTH - 2 →
  fgets MAX_COMMAND_LENGTH (l ++ newline :: rest) = Some (l ++ [newline], rest).
Proof.
  intros Hl Hlen. unfold fgets.
  rewrite read_line_short by (done || unfold MAX_COMMAND_LENGTH in *; lia).
  by destruct l.
Qed.

Lemma fgets_overlong l rest :
  newline ∉ l → length l = MAX_COMMAND_LENGTH - 1 →
  fgets MAX_COMMAND_LENGTH (l ++ rest) = Some (l, rest).
Proof.
  intros Hl Hlen. unfold fgets. rewrite read_line_full by done.
  destruct l; [done|]. done.
Qed.

Lemma reachable_exec c s : reachable s → reachable (st (exec c s)).
Proof. intros [cs ->]. exists (cs ++ [c]). by rewrite run_snoc. Qed.

Lemma main_body_reachable command new_node new_commit s :
  reachable s → reachable (round_st (main_body command new_node new_commit s)).
Proof.
  intros Hs.
  destruct (main_body_cases command new_node new_commit s)
    as [H|[H|[(name & _ & [H|[H|H]])|[(msg & _ & H)|[H|[H|[H|[text H]]]]]]]];
    rewrite H; simpl; try done.
  - apply (reachable_exec Init), Hs.
  - apply (reachable_exec (Add name new_node)), Hs.
  - apply (reachable_exec (Rm name)), Hs.
  - apply (reachable_exec (Checkout name)), Hs.
  - apply (reachable_exec (Commit msg new_commit)), Hs.
  - apply (reachable_exec Log), Hs.
  - apply (reachable_exec Ls), Hs.
Qed.

End loop.

(** X21. Once the input has ended, [main] never returns: every further round
    prints the prompt and the read error and runs the loop again, whatever
    the number of rounds.  Started on an empty input, [main] prints its
    greeting and then only that. *)
Theorem main_spins_at_end_of_input (fuel n : nat) (heap : allocator) (s : repo) :
  main_loop fuel n heap [] s
  = (mjoin (replicate fuel [prompt_text; line (printf "Error al leer el comando.")]),
     None)
  ∧ main fuel heap []
    = (line (printf "Bienvenido a uGit")
         :: mjoin (replicate fuel [prompt_text; line (printf "Error al leer el comando.")]),
       None).
Proof.
  assert (∀ n s, main_loop fuel n heap [] s
                 = (mjoin (replicate fuel
                             [prompt_text; line (printf "Error al leer el comando.")]),
                    None)) as Hspin.
  { induction fuel as [|fuel IH]; intros n' s'; [done|]. simpl. by rewrite IH. }
  split; [apply Hspin|]. unfold main. by rewrite Hspin.
Qed.

(** X22. A line of at most 98 characters is one round of the loop: the body
    runs on the line with its newline, and the loop goes on with the input
    after it; when the body ends on [break], as for [exit], [main] returns 0
    and the input after the line is not read. *)
Theorem main_loop_runs_line
    (fuel n : nat) (heap : allocator) (l rest : list ascii) (s : repo) :
  newline ∉ l → length l ≤ MAX_COMMAND_LENGTH - 2 →
  main_loop (S fuel) n heap (l ++ newline :: rest) s
  = match main_body (l ++ [newline]) (node_in heap n) (block_in heap n) s with
    | Continue o s' =>
        (prompt_text :: (line <$> o) ++ (main_loop fuel (S n) heap rest s').1,
         (main_loop fuel (S n) heap rest s').2)
    | Break o s' => (prompt_text :: (line <$> o), Some (0%Z, s'))
    end.
Proof.
  intros Hl Hlen. cbn [main_loop]. rewrite fgets_line by done.
  destruct (main_body _ _ _ s) as [o s'|o s']; [|done].
  by destruct (main_loop fuel (S n) heap rest s').
Qed.

Lemma main_loop_runs_line_witness :
  ((newline ∉ lit "exit") ∧ length (lit "exit") ≤ MAX_COMMAND_LENGTH - 2)
  ∧ main_loop 1 0 zero_heap (lit "exit" ++ newline :: lit "add a") ready
    = ([prompt_text; line (printf "Saliendo de uGit.")], Some (0%Z, ready)).
Proof.
  assert (newline ∉ lit "exit") as Hl by not_in_word.
  assert (length (lit "exit") ≤ MAX_COMMAND_LENGTH - 2) as Hlen by (vm_compute; lia).
  split; [by split|].
  by rewrite (main_loop_runs_line 0 0 zero_heap (lit "exit") (lit "add a") ready Hl Hlen).
Defined.

(** X23. A line of more than 99 characters is cut: its first 99 characters
    are one command, without a newline, and what is left of the line is read
    as the next command. *)
Theorem main_loop_cuts_long_line
    (fuel n : nat) (heap : allocator) (l rest : list ascii) (s : repo) :
  newline ∉ l → length l = MAX_COMMAND_LENGTH - 1 →
  main_loop (S fuel) n heap (l ++ rest) s
  = match main_body l (node_in heap n) (block_in heap n) s with
    | Continue o s' =>
        (prompt_text :: (line <$> o) ++ (main_loop fuel (S n) heap rest s').1,
         (main_loop fuel (S n) heap rest s').2)
    | Break o s' => (prompt_text :: (line <$> o), Some (0%Z, s'))
    end.
Proof.
  intros Hl Hlen. cbn [main_loop]. rewrite fgets_overlong by done.
  destruct (main_body _ _ _ s) as [o s'|o s']; [|done].
  by destruct (main_loop fuel (S n) heap rest s').
Qed.

Lemma main_loop_cuts_long_line_witness :
  let l := lit "add " ++ replicate 95 "a"%char in
  ((newline ∉ l) ∧ length l = MAX_COMMAND_LENGTH - 1)
  ∧ (main_loop 2 0 zero_heap (l ++ lit "exit" ++ [newline]) ready).2
    = Some (0%Z, st (add_file (replicate 95 "a"%char) (Some zero_node) ready)).
Proof.
  intros l.
  assert (newline ∉ l) as Hl.
  { unfold l. rewrite not_elem_of_app. split; [not_in_word|].
    by intros [? _]%elem_of_replicate. }
  assert (length l = MAX_COMMAND_LENGTH - 1) as Hlen by reflexivity.
  split; [by split|].
  by rewrite (main_loop_cuts_long_line 1 0 zero_heap l (lit "exit" ++ [newline]) ready
                Hl Hlen).
Defined.

(** X24. When [main] returns, it returns 0, and the state it leaves is one
    that calls of the interface reach from the state the loop started in: a
    session of the prompt is a sequence of calls. *)
Theorem main_loop_returns_reachable
    (fuel n : nat) (heap : allocator) (stdin : list ascii) (s : repo)
    (o : list console) (v : Z) (s' : repo) :
  reachable s →
  main_loop fuel n heap stdin s = (o, Some (v, s')) →
  v = 0%Z ∧ reachable s'.
Proof.
  revert n stdin s o. induction fuel as [|fuel IH]; intros n stdin s o Hs Hloop; [done|].
  cbn [main_loop] in Hloop.
  destruct (fgets MAX_COMMAND_LENGTH stdin) as [[command stdin']|].
  - pose proof (main_body_reachable command (node_in heap n) (block_in heap n) s Hs) as Hr.
    destruct (main_body command _ _ s) as [o1 s1|o1 s1]; simpl in Hr.
    + destruct (main_loop fuel (S n) heap stdin' s1) as [o2 r2] eqn:Hrest.
      injection Hloop as _ ->. by eapply IH.
    + by injection Hloop as _ <- <-.
  - destruct (main_loop fuel (S n) heap stdin s) as [o2 r2] eqn:Hrest.
    injection Hloop as _ ->. by eapply IH.
Qed.

Lemma main_loop_returns_reachable_witness :
  let stdin := lit "init" ++ newline :: lit "add a" ++ newline :: lit "exit" ++ [newline] in
  reachable initial_repo
  ∧ (main_loop 3 0 zero_heap stdin initial_repo).2 = Some (0%Z, a_staged)
  ∧ reachable a_staged.
Proof.
  intros stdin.
  assert (reachable initial_repo) as Hs by (by exists []).
  split; [done|]. split; [reflexivity|].
  by destruct (main_loop_returns_reachable 3 0 zero_heap stdin initial_repo
                 (main_loop 3 0 zero_heap stdin initial_repo).1 0%Z a_staged Hs eq_refl).
Defined.
